(** * TrackToTrip: the [Track] class of [tracktotrip/track.py]

    A shallow embedding of the track-level orchestration code: construction
    and housekeeping ([__init__], [segmentAt], [generateName], [getBounds]),
    the in-place transform pipeline ([toTrip] and its stages), the
    index-backed [similarity] scan and [merge_and_fit].

    Python objects live in an explicit store: a [Track] and a [Segment] are
    references, in-place mutation is a store update, and a method returns an
    outcome (a value or a raised exception) together with the new store. *)

From Stdlib Require Import ZArith Lia List.
From Stdlib Require Import Floats.SpecFloat.
From stdpp Require Import base list gmap strings sorting pretty.

Set Default Proof Using "Type".

(** ** Python floats

    A Python [float] is an IEEE 754 binary64 value; [spec_float] gives its
    comparison and arithmetic without rounding shortcuts. *)
Module PyFloat.

Definition float := spec_float.

Definition prec : Z := 53.
Definition emax : Z := 1024.

(** [float("inf")], [-float("inf")], [float("nan")], and the float [0.0]
    that the integer literal [0] becomes inside a numpy array. *)
Definition inf : float := S754_infinity false.
Definition neg_inf : float := S754_infinity true.
Definition nan : float := S754_nan.
Definition zero : float := S754_zero false.

Definition of_Z (z : Z) : float := binary_normalize prec emax z 0 false.

Definition is_nan (x : float) : bool :=
  match x with S754_nan => true | _ => false end.

(** [x < y], [x <= y], [x > y] as the interpreter evaluates them on floats. *)
Definition lt (x y : float) : bool := SFltb x y.
Definition le (x y : float) : bool := SFleb x y.
Definition gt (x y : float) : bool := SFltb y x.

Definition add (x y : float) : float := SFadd prec emax x y.
Definition div (x y : float) : float := SFdiv prec emax x y.

(** Every float that is not NaN has a place on a line: sign class first,
    then exponent, then mantissa. *)
Definition key (x : float) : Z * (Z * Z) :=
  match x with
  | S754_nan => (3, (0, 0))
  | S754_infinity true => (-2, (0, 0))
  | S754_finite true m e => (-1, (- e, - Z.pos m))
  | S754_zero _ => (0, (0, 0))
  | S754_finite false m e => (1, (e, Z.pos m))
  | S754_infinity false => (2, (0, 0))
  end%Z.

Definition lex_compare (a b : Z * (Z * Z)) : comparison :=
  match (a.1 ?= b.1)%Z with
  | Eq => match (a.2.1 ?= b.2.1)%Z with
          | Eq => (a.2.2 ?= b.2.2)%Z
          | c => c
          end
  | c => c
  end.

(** The strict order of keys. *)
Definition klt (a b : Z * (Z * Z)) : Prop :=
  (a.1 < b.1 \/ (a.1 = b.1 /\
     (a.2.1 < b.2.1 \/ (a.2.1 = b.2.1 /\ a.2.2 < b.2.2))))%Z.

End PyFloat.

(** ** Built-in functions the class calls *)
Module Py.
Import PyFloat.

(** [min(a, b)] and [max(a, b)]: the first argument is kept unless the
    second one is strictly smaller (resp. greater). *)
Definition min2 (a b : float) : float := if lt b a then b else a.
Definition max2 (a b : float) : float := if gt b a then b else a.

(** [max(xs)] over a list: keep the running maximum, replace it when an
    item compares greater. [None] is the [ValueError] on an empty list. *)
Definition max_list (xs : list float) : option float :=
  match xs with
  | [] => None
  | x :: rest => Some (fold_left (fun m y => if gt y m then y else m) rest x)
  end.

(** [numpy.argmax] on a float array: the running maximum moves to item
    [i] when [not (item <= maximum)], and the scan stops at the first
    NaN. *)
Fixpoint argmax_from (mp : float) (mi i : nat) (xs : list float) : nat :=
  match xs with
  | [] => mi
  | x :: rest =>
      if negb (le x mp)
      then (if is_nan x then i else argmax_from x i (S i) rest)
      else argmax_from mp mi (S i) rest
  end.

Definition argmax (xs : list float) : option nat :=
  match xs with
  | [] => None
  | x :: rest => Some (if is_nan x then 0 else argmax_from x 0 1 rest)
  end.

(** [numpy.mean]: the sum of the items divided by their count, both as
    floats; on an empty list that is [0.0 / 0]. The items are added from
    left to right; numpy adds eight or more floats pairwise, so on such a
    list its result can differ from this one in the last bits (not on a
    list of zeros, nor on the empty list). *)
Definition mean (xs : list float) : float :=
  div (fold_left add xs zero) (of_Z (Z.of_nat (length xs))).

(** [xs[i]] for an integer [i]: a negative index counts from the end;
    [None] is the [IndexError]. *)
Definition getitem {A} (xs : list A) (i : Z) : option A :=
  if (0 <=? i)%Z then xs !! Z.to_nat i
  else if (- Z.of_nat (length xs) <=? i)%Z
       then xs !! Z.to_nat (Z.of_nat (length xs) + i)
       else None.

(** [sorted(xs, key=k)]: a stable sort that compares keys with [<] only.
    Each item is placed in front of the first item of the sorted rest
    whose key is not smaller. *)
Section Sorted.
Context {A : Type} (k : A -> Z).

Fixpoint insert_by (x : A) (xs : list A) : list A :=
  match xs with
  | [] => [x]
  | y :: rest => if (k y <? k x)%Z then y :: insert_by x rest
                 else x :: y :: rest
  end.

Definition sorted (xs : list A) : list A := foldr insert_by [] xs.

(** Two items in key order. *)
Definition key_le (a b : A) : Prop := (k a <= k b)%Z.
End Sorted.

End Py.

(** ** Objects, store and method outcomes *)
Module Heap.

(** A [Segment] object and a [Track] object are known by their identity. *)
Definition sref := nat.
Definition tref := nat.

Inductive exn := IndexError | ValueError.

Inductive outcome (A : Type) :=
| Returned (a : A)
| Raised (e : exn).
Global Arguments Returned {A} a.
Global Arguments Raised {A} e.

(** The attributes of a [Track]; [segments] holds references, so two
    slots (or two tracks) may share one [Segment] object. *)
Record Track := mkTrack {
  name : string;
  segments : list sref;
  preprocessed : bool
}.

Global Instance Track_inhabited : Inhabited Track :=
  populate (mkTrack "" [] false).

(** Calls made on [Segment] objects by the in-place stages, in program
    order. *)
Inductive event :=
| ERemoveNoise (r : sref)
| ESmooth (r : sref)
| ESegment (r : sref)
| ESimplify (r : sref)
| EComputeMetrics (r : sref)
| EMergeAndFit (r arg : sref).

Inductive stage :=
| StRemoveNoise | StSmooth | StSegment | StSimplify | StComputeMetrics
| StMergeAndFit.

Definition stage_of (e : event) : stage :=
  match e with
  | ERemoveNoise _ => StRemoveNoise
  | ESmooth _ => StSmooth
  | ESegment _ => StSegment
  | ESimplify _ => StSimplify
  | EComputeMetrics _ => StComputeMetrics
  | EMergeAndFit _ _ => StMergeAndFit
  end.

Global Instance stage_eq_dec : EqDecision stage.
Proof. solve_decision. Defined.

Section Store.
Context {Seg : Type}.

Record store := mkStore {
  tracks : gmap tref Track;
  segs : gmap sref Seg;
  calls : list event
}.

(** A method body: it runs from a store and ends in a value or an
    exception; mutations done before a [raise] stay in the store. *)
Definition M (A : Type) : Type := store -> outcome A * store.

Definition ret {A} (a : A) : M A := fun σ => (Returned a, σ).
Definition raise {A} (e : exn) : M A := fun σ => (Raised e, σ).
Definition bind {A B} (m : M A) (f : A -> M B) : M B :=
  fun σ => match m σ with
           | (Returned a, σ') => f a σ'
           | (Raised e, σ') => (Raised e, σ')
           end.

(** [for x in xs: body(x)] *)
Fixpoint for_each {A} (body : A -> M unit) (xs : list A) : M unit :=
  match xs with
  | [] => ret tt
  | x :: rest => bind (body x) (fun _ => for_each body rest)
  end.

Definition get_track (self : tref) : M Track :=
  fun σ => (Returned (tracks σ !!! self), σ).

Definition get_seg `{!Inhabited Seg} (r : sref) : M Seg :=
  fun σ => (Returned (segs σ !!! r), σ).

Definition set_name (self : tref) (n : string) : M unit :=
  fun σ => (Returned tt,
            mkStore (alter (fun t => mkTrack n (segments t) (preprocessed t))
                           self (tracks σ))
                    (segs σ) (calls σ)).

Definition set_segments (self : tref) (ss : list sref) : M unit :=
  fun σ => (Returned tt,
            mkStore (alter (fun t => mkTrack (name t) ss (preprocessed t))
                           self (tracks σ))
                    (segs σ) (calls σ)).

(** A method call on the [Segment] object [r] that changes its state by
    [f]; the call is appended to the log. *)
Definition call_seg (ev : event) (f : Seg -> Seg) (r : sref) : M unit :=
  fun σ => (Returned tt,
            mkStore (tracks σ) (alter f r (segs σ)) (calls σ ++ [ev])).

(** The segment states after [f] has been applied to the objects [rs], one
    after the other (an object listed twice is changed twice). *)
Definition apply_all (f : Seg -> Seg) (rs : list sref) (m : gmap sref Seg)
  : gmap sref Seg := fold_left (fun m r => alter f r m) rs m.

(** Two stores that differ at most in the state of the segment object
    [r]. *)
Definition agree_except (r : sref) (σ1 σ2 : store) : Prop :=
  tracks σ1 = tracks σ2 /\ calls σ1 = calls σ2 /\
  forall r', r' <> r -> segs σ1 !! r' = segs σ2 !! r'.

(** Object creation: a reference no object has yet. *)
Definition new_seg (v : Seg) : M sref :=
  fun σ => let r := fresh (dom (segs σ)) in
           (Returned r, mkStore (tracks σ) (<[r := v]> (segs σ)) (calls σ)).

Definition new_track (t : Track) : M tref :=
  fun σ => let r := fresh (dom (tracks σ)) in
           (Returned r, mkStore (<[r := t]> (tracks σ)) (segs σ) (calls σ)).
End Store.
Global Arguments store : clear implicits.
Global Arguments M : clear implicits.

End Heap.

Declare Scope py_scope.
Delimit Scope py_scope with py.
Notation "x <- m ;; k" := (Heap.bind m (fun x => k))
  (at level 100, m at next level, right associativity) : py_scope.
Notation "m ;;; k" := (Heap.bind m (fun _ => k))
  (at level 100, right associativity) : py_scope.

(** ** The collaborators of [Track] *)
Module Collab.
Import PyFloat.

(** [(minLat, minLon, maxLat, maxLon)] *)
Definition BBox : Type := float * float * float * float.

Definition bb_minLat (b : BBox) : float := b.1.1.1.
Definition bb_minLon (b : BBox) : float := b.1.1.2.
Definition bb_maxLat (b : BBox) : float := b.1.2.
Definition bb_maxLon (b : BBox) : float := b.2.

Definition box_no_nan (b : BBox) : Prop :=
  is_nan (bb_minLat b) = false /\ is_nan (bb_minLon b) = false /\
  is_nan (bb_maxLat b) = false /\ is_nan (bb_maxLon b) = false.

(** [m] is a least (greatest) item of [xs]: one of them, and in order with
    all of them. *)
Definition is_min_of (m : float) (xs : list float) : Prop :=
  m ∈ xs /\ forall x, x ∈ xs -> le m x = true.
Definition is_max_of (m : float) (xs : list float) : Prop :=
  m ∈ xs /\ forall x, x ∈ xs -> le x m = true.

(** The [Segment] class, the [similarity] module and [defaults] are outside
    this file. [Seg] is the state of one [Segment] object; each method used
    by [Track] is a function of that state, and a mutating method gives the
    receiver's new state. *)
Class SegmentAPI (Seg Points Diff Strategy Num : Type) := {
  seg_inhabited :: Inhabited Seg;
  seg_getStartTime : Seg -> Z;
  seg_getBounds : Seg -> BBox;
  (** [segment.pointAt(0).time.strftime(f)] *)
  seg_first_strftime : Seg -> string -> string;
  seg_removeNoise : Num -> Seg -> Seg;
  seg_smooth : Strategy -> Num -> Seg -> Seg;
  (** [segment.segment(eps, min_time)]: the receiver's state afterwards and
      the point lists returned. *)
  seg_segment : Num -> Num -> Seg -> Seg * list Points;
  (** [Segment(points)] *)
  Segment_init : Points -> Seg;
  seg_simplify : bool -> Num -> Seg -> Seg;
  seg_compute_metrics : Seg -> Seg;
  (** Modelled from the spec: [Segment.merge_and_fit(other)] fuses the data
      of [other] into the receiver; it gives the receiver's new state from
      both states and leaves [other] as it is. *)
  seg_merge_and_fit : Seg -> Seg -> Seg;
  (** [segment_similarity(a, b)] gives [(score, diff)]. *)
  segment_similarity : Seg -> Seg -> float * Diff
}.

(** Modelled from the spec: the spatial index of the [rtree] package. It
    keeps the inserted [(id, bbox, payload)] entries; an intersection query
    gives every entry whose box overlaps the query box, in an order that is
    the index's own ([rtree_order]), each entry once. *)
Record entry (Seg : Type) := mkEntry {
  id : nat;
  bounds : BBox;
  object : Seg
}.
Global Arguments mkEntry {Seg} id bounds object.
Global Arguments id {Seg} e.
Global Arguments bounds {Seg} e.
Global Arguments object {Seg} e.

Class RtreeAPI (Seg : Type) := {
  rtree_order : list (entry Seg) -> list (entry Seg);
  rtree_order_perm : forall l, rtree_order l ≡ₚ l
}.

End Collab.

(** ** The [Track] class *)
Module TrackPy.
Import PyFloat Heap Collab.
Local Open Scope py_scope.

Section WithSegment.
Context {Seg Points Diff Strategy Num : Type}.
Context `{!SegmentAPI Seg Points Diff Strategy Num} `{!RtreeAPI Seg}.

Abbreviation store := (Heap.store Seg).
Abbreviation M := (Heap.M Seg).

(** *** Construction and housekeeping *)

Definition start_time_of (σ : store) (r : sref) : Z :=
  seg_getStartTime (segs σ !!! r).

(** [__init__(self, name, segments)] run on a new object. *)
Definition Track_init (name : string) (segments : list sref) : M tref :=
  fun σ =>
    new_track (mkTrack name (Py.sorted (start_time_of σ) segments) false) σ.

Definition segmentAt (self : tref) (i : Z) : M sref :=
  t <- get_track self;;
  match Py.getitem (segments t) i with
  | Some r => ret r
  | None => raise IndexError
  end.

Definition generateName (self : tref) (f : string) : M string :=
  t <- get_track self;;
  if (0 <? length (segments t))%nat
  then r <- segmentAt self 0;;
       s <- get_seg r;;
       ret (seg_first_strftime s f +:+ ".gpx")
  else ret "EmptyTrack".

(** *** In-place stages *)

Definition removeNoise (self : tref) (var : Num) : M tref :=
  t <- get_track self;;
  for_each (fun r => call_seg (ERemoveNoise r) (seg_removeNoise var) r)
           (segments t);;;
  ret self.

Definition smooth (self : tref) (strategy : Strategy) (noise : Num) : M tref :=
  t <- get_track self;;
  for_each (fun r => call_seg (ESmooth r) (seg_smooth strategy noise) r)
           (segments t);;;
  ret self.

(** [for a in s: newSegments.append(Segment(a))] *)
Fixpoint append_new (s : list Points) (newSegments : list sref)
  : M (list sref) :=
  match s with
  | [] => ret newSegments
  | a :: rest => r <- new_seg (Segment_init a);;
                 append_new rest (newSegments ++ [r])
  end.

Fixpoint segment_loop (eps min_time : Num) (todo : list sref)
    (newSegments : list sref) : M (list sref) :=
  match todo with
  | [] => ret newSegments
  | r :: rest =>
      v <- get_seg r;;
      call_seg (ESegment r) (fun v0 => (seg_segment eps min_time v0).1) r;;;
      newSegments' <- append_new (seg_segment eps min_time v).2 newSegments;;
      segment_loop eps min_time rest newSegments'
  end.

Definition segment (self : tref) (eps min_time : Num) : M tref :=
  t <- get_track self;;
  newSegments <- segment_loop eps min_time (segments t) [];;
  set_segments self newSegments;;;
  ret self.

Definition simplify (self : tref) (topology_only : bool)
    (dist_threshold : Num) : M tref :=
  t <- get_track self;;
  for_each (fun r => call_seg (ESimplify r)
                       (seg_simplify topology_only dist_threshold) r)
           (segments t);;;
  ret self.

Definition compute_metrics (self : tref) : M tref :=
  t <- get_track self;;
  for_each (fun r => call_seg (EComputeMetrics r) seg_compute_metrics r)
           (segments t);;;
  ret self.

Definition toTrip (self : tref) (name : string) (noise_var : Num)
    (smooth_strategy : Strategy) (smooth_noise seg_eps seg_min_time
     simplify_dist_threshold simplify_max_time : Num) (file_format : string)
  : M tref :=
  name <- (if negb (String.length name =? 0)%nat
           then (t <- get_track self;; ret (Heap.name t))
           else generateName self file_format);;
  smooth self smooth_strategy smooth_noise;;;
  compute_metrics self;;;
  segment self seg_eps seg_min_time;;;
  compute_metrics self;;;
  simplify self false simplify_dist_threshold;;;
  compute_metrics self;;;
  set_name self name;;;
  ret self.

(** *** Bounds *)

(** The boxes of the segment objects [ss], in order. *)
Definition boxes_of (σ : store) (ss : list sref) : list BBox :=
  map (fun r => seg_getBounds (segs σ !!! r)) ss.

Definition bounds_step (σ : store) (acc : BBox) (r : sref) : BBox :=
  let '(minLat, minLon, maxLat, maxLon) := acc in
  let '(milat, milon, malat, malon) := seg_getBounds (segs σ !!! r) in
  (Py.min2 milat minLat, Py.min2 milon minLon,
   Py.max2 malat maxLat, Py.max2 malon maxLon).

Definition getBounds (self : tref) : M BBox :=
  t <- get_track self;;
  fun σ => (Returned (fold_left (bounds_step σ) (segments t)
                                (inf, inf, neg_inf, neg_inf)), σ).

(** *** Merging *)

(** One entry of a correspondence list: the triple
    [(selfSegIndex, queryIndex, diff)], or the empty list [[]] that stands
    for "no match". *)
Inductive corr :=
| Match (selfSegIndex queryIndex : Z) (diff : Diff)
| NoMatch.

(** The loop body of [merge_and_fit]: unpacking [[]] into three names is a
    [ValueError]; both list accesses may raise [IndexError]. *)
Definition merge_step (self track : tref) (entry : corr) : M unit :=
  match entry with
  | NoMatch => raise ValueError
  | Match selfSegIndex trackSegIndex diffs =>
      st <- get_track self;;
      match Py.getitem (segments st) selfSegIndex with
      | None => raise IndexError
      | Some selfS =>
          tt <- get_track track;;
          match Py.getitem (segments tt) trackSegIndex with
          | None => raise IndexError
          | Some trackS =>
              other <- get_seg trackS;;
              call_seg (EMergeAndFit selfS trackS)
                       (fun v => seg_merge_and_fit v other) selfS
          end
      end
  end.

Definition merge_and_fit (self track : tref) (ff : list corr)
    (threshold : Num) : M tref :=
  for_each (merge_step self track) ff;;;
  ret self.

(** What an entry says apart from its diff payload. *)
Definition index_pair (entry : corr) : option (Z * Z) :=
  match entry with
  | Match selfSegIndex trackSegIndex _ => Some (selfSegIndex, trackSegIndex)
  | NoMatch => None
  end.

(** The segment-level merge an entry stands for, given the two segment
    lists: receiver and argument, when both indices can be read. *)
Definition merge_of (ss ts : list sref) (entry : corr) : option event :=
  match entry with
  | Match selfSegIndex trackSegIndex _ =>
      match Py.getitem ss selfSegIndex, Py.getitem ts trackSegIndex with
      | Some selfS, Some trackS => Some (EMergeAndFit selfS trackS)
      | _, _ => None
      end
  | NoMatch => None
  end.

(** An entry that [merge_and_fit] can process: a triple whose two indices
    can be read. *)
Definition readable (ss ts : list sref) (e : corr) : Prop :=
  exists i j d, e = Match i j d /\
                is_Some (Py.getitem ss i) /\ is_Some (Py.getitem ts j).

(** *** Similarity *)

(** The index as [similarity] uses it: entries in insertion order. *)
Definition Index : Type := list (entry Seg).

Definition Index_insert (idx : Index) (n : nat) (b : BBox) (obj : Seg)
  : Index := idx ++ [mkEntry n b obj].

(** Modelled from the spec: two boxes overlap unless one lies wholly
    beyond the other along the latitude or the longitude (boxes are closed,
    so touching boxes overlap). *)
Definition bbox_intersects (a b : BBox) : bool :=
  let '(alat, alon, Alat, Alon) := a in
  let '(blat, blon, Blat, Blon) := b in
  negb (gt alat Blat || lt Alat blat) && negb (gt alon Blon || lt Alon blon).

Definition Index_intersection (idx : Index) (q : BBox)
  : list (entry Seg) :=
  rtree_order (List.filter (fun e => bbox_intersects (bounds e) q) idx).

(** [for segment in self.segments: idx.insert(n, ...); n = n + 1] *)
Fixpoint build_index (σ : store) (todo : list sref) (n : nat) (idx : Index)
  : Index :=
  match todo with
  | [] => idx
  | r :: rest =>
      build_index σ rest (S n)
        (Index_insert idx n (seg_getBounds (segs σ !!! r)) (segs σ !!! r))
  end.

Definition res_siml (segment : Seg) (query : list (entry Seg)) : list float :=
  map (fun result => (segment_similarity segment (object result)).1) query.

Definition res_diff (i : nat) (segment : Seg) (query : list (entry Seg))
  : list corr :=
  map (fun result => Match (Z.of_nat (id result)) (Z.of_nat i)
                       (segment_similarity segment (object result)).2) query.

(** The body of the loop over [enumerate(track.segments)]: the score and
    the correspondence entry appended for query segment [i]. *)
Definition best_match (idx : Index) (i : nat) (segment : Seg)
  : outcome (float * corr) :=
  let query := Index_intersection idx (seg_getBounds segment) in
  if (0 <? length (res_siml segment query))%nat
  then match Py.max_list (res_siml segment query),
             Py.argmax (res_siml segment query) with
       | Some best, Some k =>
           match res_diff i segment query !! k with
           | Some d => Returned (best, d)
           | None => Raised IndexError
           end
       | _, _ => Raised ValueError
       end
  else Returned (zero, NoMatch).

Fixpoint scan (σ : store) (idx : Index) (i : nat) (todo : list sref)
    (final_siml : list float) (final_diff : list corr)
  : outcome (list float * list corr) :=
  match todo with
  | [] => Returned (final_siml, final_diff)
  | r :: rest =>
      match best_match idx i (segs σ !!! r) with
      | Returned (s, d) =>
          scan σ idx (S i) rest (final_siml ++ [s]) (final_diff ++ [d])
      | Raised e => Raised e
      end
  end.

(** The entry under which the segment object [r], at position [j] of
    [self.segments], is put in the index, and the index [similarity]
    builds. *)
Definition entry_of (σ : store) (j : nat) (r : sref) : entry Seg :=
  mkEntry j (seg_getBounds (segs σ !!! r)) (segs σ !!! r).

Definition index_of (σ : store) (self : tref) : Index :=
  build_index σ (segments (tracks σ !!! self)) 0 [].

(** The candidates of a query segment in state [Q], as the index
    enumerates them, and the score of one of them. *)
Definition candidates (idx : Index) (Q : Seg) : list (entry Seg) :=
  Index_intersection idx (seg_getBounds Q).

Definition score_of (Q : Seg) (c : entry Seg) : float :=
  (segment_similarity Q (object c)).1.

Definition diff_of (Q : Seg) (c : entry Seg) : Diff :=
  (segment_similarity Q (object c)).2.

(** The two lists [final_siml] and [final_diff] as they stand before the
    [return]. *)
Definition similarity_lists (self track : tref) (σ : store)
  : outcome (list float * list corr) :=
  let idx := index_of σ self in
  scan σ idx 0 (segments (tracks σ !!! track)) [] [].

Definition similarity (self track : tref) : M (float * list corr) :=
  fun σ => match similarity_lists self track σ with
           | Returned (final_siml, final_diff) =>
               (Returned (Py.mean final_siml, final_diff), σ)
           | Raised e => (Raised e, σ)
           end.

End WithSegment.
Global Arguments corr : clear implicits.
End TrackPy.

(** ** A concrete [Segment] for running the model

    A segment is a start time, a box and its points (numbered); merging
    appends the other segment's points, segmentation cuts after every
    point, a score is read off the candidate's start time. *)
Module Fixture.
Import PyFloat Heap Collab.

Record FSeg := mkFSeg {
  f_start : Z;
  f_box : BBox;
  f_points : list Z
}.

Definition box (a b c d : Z) : BBox := (of_Z a, of_Z b, of_Z c, of_Z d).

Global Instance FSeg_inhabited : Inhabited FSeg :=
  populate (mkFSeg 0 (box 0 0 0 0) []).

Global Instance FSeg_api : SegmentAPI FSeg (list Z) Z string Z := {|
  seg_getStartTime := f_start;
  seg_getBounds := f_box;
  seg_first_strftime := fun s f => f;
  seg_removeNoise := fun _ s =>
    mkFSeg (f_start s) (f_box s) (tail (f_points s));
  seg_smooth := fun _ _ s => s;
  seg_segment := fun _ _ s => (s, map (fun p => [p]) (f_points s));
  Segment_init := fun ps => mkFSeg (hd 0%Z ps) (box 0 0 1 1) ps;
  seg_simplify := fun _ _ s => s;
  seg_compute_metrics := fun s => s;
  seg_merge_and_fit := fun s o => mkFSeg (f_start s) (f_box s)
                                         (f_points s ++ f_points o);
  segment_similarity := fun a b =>
    (of_Z (f_start b), (f_start a - f_start b)%Z)
|}.

(** An index that answers in insertion order. *)
Global Instance FSeg_rtree : RtreeAPI FSeg := {|
  rtree_order := fun l => l;
  rtree_order_perm := fun l => Permutation_refl l
|}.

Definition seg_a : FSeg := mkFSeg 10 (box 0 0 2 2) [1; 2]%Z.
Definition seg_b : FSeg := mkFSeg 20 (box 1 1 3 3) [3]%Z.
Definition seg_c : FSeg := mkFSeg 20 (box 5 5 6 6) [4; 5]%Z.

(** Three segment objects and four tracks: track 0 lists segments 0, 1, 2;
    track 1, named ["old"], lists segment 1 alone; track 2 lists segment 0
    twice; track 3 has no segment. *)
Definition σ0 : store FSeg :=
  mkStore (<[0 := mkTrack "" [0; 1; 2] false]>
             (<[1 := mkTrack "old" [1] false]>
                (<[2 := mkTrack "twice" [0; 0] false]>
                   (<[3 := mkTrack "none" [] false]> ∅))))
          (<[0 := seg_a]> (<[1 := seg_b]> (<[2 := seg_c]> ∅)))
          [].

End Fixture.

(** ** More collaborators of [Track]

    The segment-level methods behind the point lookup, the list-replacing
    stages and the format adapters. *)
Module CollabMore.
Import PyFloat Heap Collab.

(** Modelled from the spec: a per-segment operation returns a transformed
    segment. What [map] collects from one call is either the receiver
    itself or a segment object made by the call. *)
Inductive returned (Seg : Type) :=
| RSelf
| RNew (v : Seg).
Global Arguments RSelf {Seg}.
Global Arguments RNew {Seg} v.

(** [segment.getPointIndex(point)]: the position of the point in the
    segment, [-1] when the segment does not hold it. *)
Class SegmentLookupAPI (Seg Point : Type) := {
  seg_getPointIndex : Seg -> Point -> Z
}.

(** [segment.preprocess(destructive, max_acc)],
    [segment.inferLocation(query, max_distance, google_key, limit)]: the
    receiver's state afterwards and what the call returns;
    [segment.inferTransportationMode(clf, removeStops, dt_threshold)]: the
    receiver's state afterwards. *)
Class SegmentInferAPI (Seg Clf Query Key Num : Type) := {
  seg_preprocess : bool -> Num -> Seg -> Seg * returned Seg;
  seg_inferLocation : Query -> Num -> Key -> Num -> Seg -> Seg * returned Seg;
  seg_inferTransportationMode : Clf -> bool -> Num -> Seg -> Seg
}.

(** [Segment.fromJSON(s)], [segment.toJSON()] and [Segment.fromGPX(s)];
    [PREPROCESS_MAX_ACC] is the constant of [defaults] that [preprocess]
    takes when called without arguments. *)
Class SegmentFormatAPI (Seg JSeg GSeg Num : Type) := {
  Segment_fromJSON : JSeg -> Seg;
  seg_toJSON : Seg -> JSeg;
  Segment_fromGPX : GSeg -> Seg;
  PREPROCESS_MAX_ACC : Num
}.

End CollabMore.

(** ** The rest of the [Track] class *)
Module TrackMore.
Import PyFloat Heap Collab CollabMore TrackPy.
Local Open Scope py_scope.

Section WithSegment.
Context {Seg Points Diff Strategy Num Point Clf Query Key JSeg GSeg : Type}.
Context `{!SegmentAPI Seg Points Diff Strategy Num}.
Context `{!SegmentLookupAPI Seg Point}.
Context `{!SegmentInferAPI Seg Clf Query Key Num}.
Context `{!SegmentFormatAPI Seg JSeg GSeg Num}.

Abbreviation store := (Heap.store Seg).
Abbreviation M := (Heap.M Seg).

(** A method call on the segment object [r] that changes its state by
    [f]; unlike the calls of the trip pipeline it is not put in the log. *)
Definition update_seg (f : Seg -> Seg) (r : sref) : M unit :=
  fun σ => (Returned tt,
            mkStore (tracks σ) (alter f r (segs σ)) (calls σ)).

Definition set_preprocessed (self : tref) (b : bool) : M unit :=
  fun σ => (Returned tt,
            mkStore (alter (fun t => mkTrack (name t) (segments t) b)
                           self (tracks σ))
                    (segs σ) (calls σ)).

(** Several objects made one after the other. *)
Fixpoint new_segs (vs : list Seg) : M (list sref) :=
  match vs with
  | [] => ret []
  | v :: rest => r <- new_seg v;;
                 rs <- new_segs rest;;
                 ret (r :: rs)
  end.

(** What a stage that calls one method, of effect [f], on each of the
    segment objects [ss] does to a store: no track object changes, no
    segment object outside [ss] changes, and when no object is listed twice
    each listed object has [f] applied to its state once. *)
Definition stage_effect (f : Seg -> Seg) (ss : list sref) (σ σ' : store)
  : Prop :=
  tracks σ' = tracks σ /\
  (forall r, r ∉ ss -> segs σ' !! r = segs σ !! r) /\
  (NoDup ss -> forall r, r ∈ ss -> segs σ' !! r = f <$> segs σ !! r).

(** Every listed reference is to an object of the store. *)
Definition all_alive (ss : list sref) (σ : store) : Prop :=
  forall r, r ∈ ss -> r ∈ dom (segs σ).

(** The segment states that [segment] makes out of the object [r]: one per
    point list that the segment-level segmentation gives. *)
Definition pieces_of (eps min_time : Num) (σ : store) (r : sref)
  : list Seg :=
  map Segment_init (seg_segment eps min_time (segs σ !!! r)).2.

(** *** [getStartTime] *)

Definition start_step (σ : store) (lastTime : option Z) (r : sref)
  : option Z :=
  match lastTime with
  | None => Some (start_time_of σ r)
  | Some l => if (start_time_of σ r <? l)%Z
              then Some (start_time_of σ r)
              else Some l
  end.

Definition getStartTime (self : tref) : M (option Z) :=
  t <- get_track self;;
  fun σ => (Returned (fold_left (start_step σ) (segments t) None), σ).

(** *** [inferTransportationMode] *)

Definition inferTransportationMode (self : tref) (clf : Clf)
    (removeStops : bool) (dt_threshold : Num) : M tref :=
  t <- get_track self;;
  for_each (update_seg
              (seg_inferTransportationMode clf removeStops dt_threshold))
           (segments t);;;
  ret self.

(** *** [copy] *)

(** [deepcopy] of the segment list: every segment object met for the first
    time is duplicated, and one met again is replaced by the duplicate
    already made for it ([memo]). *)
Fixpoint copy_loop (todo : list sref) (memo : gmap sref sref)
  : M (list sref) :=
  match todo with
  | [] => ret []
  | r :: rest =>
      match memo !! r with
      | Some r' => rs <- copy_loop rest memo;;
                   ret (r' :: rs)
      | None => v <- get_seg r;;
                r' <- new_seg v;;
                rs <- copy_loop rest (<[r := r']> memo);;
                ret (r' :: rs)
      end
  end.

(** What holds between the store [σ0] in which [deepcopy] starts, the
    duplicates recorded so far and the current store: the tracks, the log
    and the objects of [σ0] are as they were, every duplicate is an object
    that [σ0] does not have, in the state of its original, and no two
    originals share a duplicate. *)
Definition copy_inv (σ0 : store) (memo : gmap sref sref) (σc : store)
  : Prop :=
  tracks σc = tracks σ0 /\ calls σc = calls σ0 /\
  (forall r, r ∈ dom (segs σ0) -> segs σc !! r = segs σ0 !! r) /\
  (forall r r', memo !! r = Some r' ->
     (r' ∉ dom (segs σ0)) /\ segs σc !! r' = Some (segs σ0 !!! r)) /\
  (forall r1 r2 r', memo !! r1 = Some r' -> memo !! r2 = Some r' -> r1 = r2).

Definition copy (self : tref) : M tref :=
  t <- get_track self;;
  rs <- copy_loop (segments t) ∅;;
  new_track (mkTrack (name t) rs (preprocessed t)).

(** *** [preprocess] and [inferLocation] *)

(** [map(lambda segment: segment.method(...), self.segments)]: the calls
    are made in list order and the list of what they return is built. *)
Fixpoint map_segments (f : Seg -> Seg * returned Seg) (todo : list sref)
  : M (list sref) :=
  match todo with
  | [] => ret []
  | r :: rest =>
      v <- get_seg r;;
      update_seg (fun v0 => (f v0).1) r;;;
      x <- match (f v).2 with
           | RSelf => ret r
           | RNew w => new_seg w
           end;;
      xs <- map_segments f rest;;
      ret (x :: xs)
  end.

(** What a stage that stores the results of [map] does, from [σ] to [σ'],
    to the track [self] that held [t]: the track keeps its name, gets the
    flag [flag] and a segment list of the same length whose items are,
    position by position, the old item or an object that did not exist;
    no other track changes, and no segment object outside the old list;
    and when the method always returns its receiver, the list is the old
    one and each call has changed its receiver by [f]. *)
Definition replaced_by_results (f : Seg -> Seg * returned Seg)
    (self : tref) (t : Track) (flag : bool) (σ σ' : store) : Prop :=
  exists new,
    tracks σ' !! self = Some (mkTrack (name t) new flag) /\
    (forall other, other <> self -> tracks σ' !! other = tracks σ !! other) /\
    length new = length (segments t) /\
    Forall2 (fun r x => x = r \/ x ∉ dom (segs σ)) (segments t) new /\
    (forall r, r ∈ dom (segs σ) -> r ∉ segments t ->
               segs σ' !! r = segs σ !! r) /\
    ((forall v, (f v).2 = RSelf) ->
     new = segments t /\
     segs σ' = apply_all (fun v => (f v).1) (segments t) (segs σ)).

Definition preprocess (self : tref) (destructive : bool) (max_acc : Num)
  : M tref :=
  t <- get_track self;;
  segments <- map_segments (seg_preprocess destructive max_acc) (segments t);;
  set_segments self segments;;;
  set_preprocessed self true;;;
  ret self.

Definition inferLocation (self : tref) (location_query : Query)
    (max_distance : Num) (google_key : Key) (limit : Num) : M tref :=
  t <- get_track self;;
  segments <- map_segments
                (seg_inferLocation location_query max_distance google_key
                                   limit)
                (segments t);;
  set_segments self segments;;;
  ret self.

(** *** [getPointIndex] and [hasPoint] *)

Fixpoint getPointIndex_loop (σ : store) (point : Point) (i : nat)
    (todo : list sref) : Z * Z :=
  match todo with
  | [] => (-1, -1)%Z
  | r :: rest =>
      let idx := seg_getPointIndex (segs σ !!! r) point in
      if negb (idx =? -1)%Z then (Z.of_nat i, idx)
      else getPointIndex_loop σ point (S i) rest
  end.

Definition getPointIndex (self : tref) (point : Point) : M (Z * Z) :=
  t <- get_track self;;
  fun σ => (Returned (getPointIndex_loop σ point 0 (segments t)), σ).

Definition hasPoint (self : tref) (point : Point) : M bool :=
  ix <- getPointIndex self point;;
  ret (negb (ix.1 =? -1)%Z).

(** *** [toJSON] and [fromJSON] *)

(** The map [fromJSON] reads and [toJSON] builds: each of the keys
    ["name"] and ["segments"] is present or not. *)
Record json := mkJson {
  j_name : option string;
  j_segments : option (list JSeg)
}.

(** How [fromJSON] ends: with the track, with the [KeyError] of a lookup
    in the map, or with an exception of the methods it calls. *)
Inductive json_outcome :=
| JReturned (t : tref)
| JKeyError (key : string)
| JRaised (e : exn).

Definition toJSON (self : tref) : M json :=
  t <- get_track self;;
  fun σ => (Returned (mkJson (Some (name t))
                             (Some (map (fun r => seg_toJSON (segs σ !!! r))
                                        (segments t)))), σ).

Definition fromJSON (j : json) : store -> json_outcome * store :=
  fun σ =>
    match j_segments j with
    | None => (JKeyError "segments", σ)
    | Some js =>
        match new_segs (map Segment_fromJSON js) σ with
        | (Raised e, σ1) => (JRaised e, σ1)
        | (Returned segments, σ1) =>
            match j_name j with
            | None => (JKeyError "name", σ1)
            | Some name =>
                match (t <- Track_init name segments;;
                       preprocess t true PREPROCESS_MAX_ACC) σ1 with
                | (Returned t, σ2) => (JReturned t, σ2)
                | (Raised e, σ2) => (JRaised e, σ2)
                end
            end
        end
    end.

(** *** [fromGPX] *)

(** [if len(gpx.tracks) > 1: name = fileName + "_" + str(ti) else: name =
    fileName]; [str(ti)] is the decimal numeral. *)
Definition gpx_name (fileName : string) (n_tracks ti : nat) : string :=
  if (1 <? n_tracks)%nat then fileName +:+ "_" +:+ pretty ti else fileName.

(** The loop of [fromGPX] over the tracks of the parsed document:
    [fileName] is the base name of the path, [n_tracks] the number of
    tracks in the document, [ti] the position of the next one; reading and
    parsing the file come before. *)
Fixpoint fromGPX_loop (fileName : string) (n_tracks ti : nat)
    (todo : list (list GSeg)) : M (list tref) :=
  match todo with
  | [] => ret []
  | track :: rest =>
      segments <- new_segs (map Segment_fromGPX track);;
      t <- Track_init (gpx_name fileName n_tracks ti) segments;;
      ts <- fromGPX_loop fileName n_tracks (S ti) rest;;
      ret (t :: ts)
  end.

Definition fromGPX (fileName : string) (gpx_tracks : list (list GSeg))
  : M (list tref) :=
  fromGPX_loop fileName (length gpx_tracks) 0 gpx_tracks.

End WithSegment.
Global Arguments json : clear implicits.
End TrackMore.

(** ** The concrete [Segment], continued

    A point is its number; preprocessing drops the first point when it may
    remove points and otherwise answers with a new segment; the formats
    are the point lists. *)
Module FixtureMore.
Import PyFloat Heap Collab CollabMore Fixture.

Fixpoint index_from (p : Z) (i : Z) (ps : list Z) : Z :=
  match ps with
  | [] => -1
  | x :: rest => if (x =? p)%Z then i else index_from p (i + 1) rest
  end.

Global Instance FSeg_lookup : SegmentLookupAPI FSeg Z := {|
  seg_getPointIndex := fun s p => index_from p 0 (f_points s)
|}.

Global Instance FSeg_infer : SegmentInferAPI FSeg string string string Z := {|
  seg_preprocess := fun destructive _ s =>
    if destructive
    then (mkFSeg (f_start s) (f_box s) (tail (f_points s)), RSelf)
    else (s, RNew s);
  seg_inferLocation := fun _ _ _ _ s => (s, RSelf);
  seg_inferTransportationMode := fun _ _ _ s => s
|}.

Global Instance FSeg_format : SegmentFormatAPI FSeg (list Z) (list Z) Z := {|
  Segment_fromJSON := fun ps => mkFSeg (hd 0%Z ps) (box 0 0 1 1) ps;
  seg_toJSON := f_points;
  Segment_fromGPX := fun ps => mkFSeg (hd 0%Z ps) (box 0 0 1 1) ps;
  PREPROCESS_MAX_ACC := 30%Z
|}.

(** The store [σ0] with one more track, number 4, which lists segment 2
    alone: its box lies apart from the boxes of segments 0 and 1. *)
Definition σ1 : store FSeg :=
  mkStore (<[4 := mkTrack "far" [2] false]> (tracks σ0)) (segs σ0) [].

End FixtureMore.

(** * Properties *)

(** ** The order of floats that are not NaN *)
Module PyFloatFacts.
Import PyFloat.

Lemma lex_compare_Lt a b : lex_compare a b = Lt <-> klt a b.
Proof.
  destruct a as [a1 [a2 a3]], b as [b1 [b2 b3]].
  unfold lex_compare, klt; simpl.
  destruct (Z.compare_spec a1 b1), (Z.compare_spec a2 b2),
    (Z.compare_spec a3 b3); split; intros;
    try discriminate; try reflexivity; lia.
Qed.

Lemma lex_compare_Gt a b : lex_compare a b = Gt <-> klt b a.
Proof.
  destruct a as [a1 [a2 a3]], b as [b1 [b2 b3]].
  unfold lex_compare, klt; simpl.
  destruct (Z.compare_spec a1 b1), (Z.compare_spec a2 b2),
    (Z.compare_spec a3 b3); split; intros;
    try discriminate; try reflexivity; lia.
Qed.

Lemma klt_trans a b c : klt a b -> klt b c -> klt a c.
Proof. unfold klt. lia. Qed.

Lemma klt_irrefl a : ~ klt a a.
Proof. unfold klt. lia. Qed.

Lemma nklt_trans a b c : ~ klt b a -> ~ klt c b -> ~ klt c a.
Proof. unfold klt. lia. Qed.

Lemma nklt_klt_trans a b c : ~ klt b a -> klt b c -> klt a c.
Proof. unfold klt. lia. Qed.

Lemma klt_nklt_trans a b c : klt a b -> ~ klt c b -> klt a c.
Proof. unfold klt. lia. Qed.

(** On floats that are not NaN the comparison is the order of the keys. *)
Lemma compare_key x y :
  is_nan x = false -> is_nan y = false ->
  SFcompare x y = Some (lex_compare (key x) (key y)).
Proof.
  destruct x as [[]|[]| |[] m1 e1], y as [[]|[]| |[] m2 e2];
    simpl; intros; try discriminate; try reflexivity.
  unfold lex_compare; simpl.
  rewrite Z.compare_opp, (Z.compare_antisym e1 e2).
  destruct (e1 ?= e2)%Z; reflexivity.
Qed.

Lemma lt_klt x y :
  is_nan x = false -> is_nan y = false ->
  lt x y = true <-> klt (key x) (key y).
Proof.
  intros Hx Hy. unfold lt, SFltb. rewrite (compare_key x y Hx Hy).
  rewrite <- lex_compare_Lt.
  destruct (lex_compare (key x) (key y)); split; congruence.
Qed.

Lemma le_nklt x y :
  is_nan x = false -> is_nan y = false ->
  le x y = true <-> ~ klt (key y) (key x).
Proof.
  intros Hx Hy. unfold le, SFleb. rewrite (compare_key x y Hx Hy).
  rewrite <- lex_compare_Gt.
  destruct (lex_compare (key x) (key y)); split; congruence.
Qed.

Lemma le_refl x : is_nan x = false -> le x x = true.
Proof. intros Hx. apply le_nklt; auto using klt_irrefl. Qed.

(** [not (x <= y)] is [x > y] away from NaN. *)
Lemma not_le_gt x y :
  is_nan x = false -> is_nan y = false -> negb (le x y) = gt x y.
Proof.
  intros Hx Hy. change (gt x y) with (lt y x).
  destruct (le x y) eqn:Hle, (lt y x) eqn:Hlt; simpl; try reflexivity.
  - apply le_nklt in Hle; auto. apply lt_klt in Hlt; auto; contradiction.
  - exfalso. assert (~ klt (key y) (key x)) as Hn.
    { intros Hk. apply lt_klt in Hk; auto. congruence. }
    apply le_nklt in Hn; auto. congruence.
Qed.

Lemma le_trans x y z :
  is_nan x = false -> is_nan y = false -> is_nan z = false ->
  le x y = true -> le y z = true -> le x z = true.
Proof.
  intros Hx Hy Hz Hxy Hyz. apply le_nklt in Hxy, Hyz; auto.
  apply le_nklt; eauto using nklt_trans.
Qed.

Lemma lt_le x y :
  is_nan x = false -> is_nan y = false -> lt x y = true -> le x y = true.
Proof.
  intros Hx Hy H. apply lt_klt in H; auto. apply le_nklt; auto.
  intros H'. exact (klt_irrefl _ (klt_trans _ _ _ H H')).
Qed.

Lemma lt_le_trans x y z :
  is_nan x = false -> is_nan y = false -> is_nan z = false ->
  lt x y = true -> le y z = true -> lt x z = true.
Proof.
  intros Hx Hy Hz Hxy Hyz. apply lt_klt in Hxy; auto.
  apply le_nklt in Hyz; auto. apply lt_klt; eauto using klt_nklt_trans.
Qed.

Lemma le_lt_trans x y z :
  is_nan x = false -> is_nan y = false -> is_nan z = false ->
  le x y = true -> lt y z = true -> lt x z = true.
Proof.
  intros Hx Hy Hz Hxy Hyz. apply le_nklt in Hxy; auto.
  apply lt_klt in Hyz; auto. apply lt_klt; eauto using nklt_klt_trans.
Qed.

Lemma le_total x y :
  is_nan x = false -> is_nan y = false -> le x y = true \/ lt y x = true.
Proof.
  intros Hx Hy. pose proof (not_le_gt x y Hx Hy) as H.
  change (gt x y) with (lt y x) in H.
  destruct (le x y); simpl in H; auto.
Qed.

End PyFloatFacts.

(** ** Built-ins *)
Module PyFacts.
Import PyFloat PyFloatFacts Collab.

Lemma getitem_nonneg {A} (xs : list A) (i : Z) :
  (0 <= i)%Z -> Py.getitem xs i = xs !! Z.to_nat i.
Proof.
  intros Hi. unfold Py.getitem.
  destruct (Z.leb_spec 0 i) as [_|Hn]; [reflexivity | lia].
Qed.

Lemma getitem_negative {A} (xs : list A) (i : Z) :
  (- Z.of_nat (length xs) <= i < 0)%Z ->
  Py.getitem xs i = xs !! Z.to_nat (Z.of_nat (length xs) + i).
Proof.
  intros Hi. unfold Py.getitem.
  destruct (Z.leb_spec 0 i) as [Hn|_]; [lia |].
  destruct (Z.leb_spec (- Z.of_nat (length xs)) i) as [_|Hn];
    [reflexivity | lia].
Qed.

Lemma getitem_out_of_range {A} (xs : list A) (i : Z) :
  (i < - Z.of_nat (length xs) \/ Z.of_nat (length xs) <= i)%Z ->
  Py.getitem xs i = None.
Proof.
  intros Hi. unfold Py.getitem.
  destruct (Z.leb_spec 0 i) as [Hp|Hn].
  - apply lookup_ge_None. lia.
  - destruct (Z.leb_spec (- Z.of_nat (length xs)) i); [lia | reflexivity].
Qed.

Section SortedFacts.
Context {A : Type} (k : A -> Z).

Lemma insert_by_perm x xs : Py.insert_by k x xs ≡ₚ x :: xs.
Proof.
  induction xs as [|y rest IH]; simpl; [reflexivity |].
  destruct (k y <? k x)%Z; [| reflexivity].
  rewrite IH. apply Permutation_swap.
Qed.

Lemma sorted_perm xs : Py.sorted k xs ≡ₚ xs.
Proof.
  induction xs as [|x rest IH]; simpl; [reflexivity |].
  rewrite insert_by_perm. by rewrite IH.
Qed.

Lemma insert_by_sorted x xs :
  StronglySorted (Py.key_le k) xs ->
  StronglySorted (Py.key_le k) (Py.insert_by k x xs).
Proof.
  induction 1 as [|y rest Hs IH Hall]; simpl.
  - repeat constructor.
  - destruct (Z.ltb_spec (k y) (k x)) as [Hlt|Hge].
    + constructor; [exact IH |].
      rewrite insert_by_perm. constructor; [unfold Py.key_le; lia | exact Hall].
    + constructor; [by constructor |].
      constructor; [exact Hge |].
      eapply Forall_impl; [exact Hall |].
      unfold Py.key_le. intros; simpl in *; lia.
Qed.

Lemma sorted_sorted xs : StronglySorted (Py.key_le k) (Py.sorted k xs).
Proof.
  induction xs as [|x rest IH]; simpl; [constructor |].
  by apply insert_by_sorted.
Qed.

(** Inserting goes past strictly smaller keys only, so an item lands in
    front of every item that shares its key. *)
Lemma insert_by_filter (v : Z) x xs :
  filter (fun a => k a = v) (Py.insert_by k x xs)
  = filter (fun a => k a = v) (x :: xs).
Proof.
  induction xs as [|y rest IH]; simpl; [reflexivity |].
  destruct (Z.ltb_spec (k y) (k x)) as [Hlt|Hge]; [| reflexivity].
  rewrite filter_cons, IH, !filter_cons.
  destruct (decide (k y = v)), (decide (k x = v)); try reflexivity; lia.
Qed.

Lemma sorted_stable (v : Z) xs :
  filter (fun a => k a = v) (Py.sorted k xs) = filter (fun a => k a = v) xs.
Proof.
  induction xs as [|x rest IH]; simpl; [reflexivity |].
  by rewrite insert_by_filter, !filter_cons, IH.
Qed.

End SortedFacts.

(** *** [min] and [max] of two floats, folded over a list *)

Lemma lt_inf_l x : lt inf x = false.
Proof. by destruct x as [[]|[]| |[] ? ?]. Qed.

Lemma lt_neg_inf_r x : lt x neg_inf = false.
Proof. by destruct x as [[]|[]| |[] ? ?]. Qed.

Lemma min2_no_nan x m :
  is_nan x = false -> is_nan m = false -> is_nan (Py.min2 x m) = false.
Proof. unfold Py.min2. by destruct (lt m x). Qed.

Lemma max2_no_nan x m :
  is_nan x = false -> is_nan m = false -> is_nan (Py.max2 x m) = false.
Proof. unfold Py.max2. by destruct (gt m x). Qed.

(** The running minimum stays below its start value and below every item
    seen, and is one of them. *)
Lemma fold_min2 (xs : list float) (m : float) :
  Forall (fun x => is_nan x = false) xs -> is_nan m = false ->
  let r := fold_left (fun m x => Py.min2 x m) xs m in
  is_nan r = false /\ le r m = true /\
  (forall x, x ∈ xs -> le r x = true) /\ (r = m \/ r ∈ xs).
Proof.
  intros Hxs. revert m.
  induction Hxs as [|x xs Hx Hxs IH]; intros m Hm; simpl.
  - split; [exact Hm |]. split; [by apply le_refl |].
    split; [| by left]. intros x Hin. by apply elem_of_nil in Hin.
  - pose proof (min2_no_nan x m Hx Hm) as Hn.
    destruct (IH (Py.min2 x m) Hn) as (Hr & Hle & Hall & Hmem).
    set (r := fold_left _ xs _) in *.
    assert (le (Py.min2 x m) m = true /\ le (Py.min2 x m) x = true)
      as [Hm1 Hm2].
    { unfold Py.min2. destruct (lt m x) eqn:Hlt.
      - split; [by apply le_refl | by apply lt_le].
      - split; [| by apply le_refl].
        destruct (le_total x m Hx Hm) as [H|H]; [exact H | congruence]. }
    split; [exact Hr |].
    split; [eapply le_trans; [| | | exact Hle | exact Hm1]; done |].
    split.
    + intros y Hy. apply elem_of_cons in Hy as [->|Hy]; [| by apply Hall].
      eapply le_trans; [| | | exact Hle | exact Hm2]; done.
    + destruct Hmem as [Heq|Hin]; [| right; apply elem_of_cons; by right].
      rewrite Heq. unfold Py.min2. destruct (lt m x); [by left |].
      right. apply elem_of_cons. by left.
Qed.

Lemma fold_max2 (xs : list float) (m : float) :
  Forall (fun x => is_nan x = false) xs -> is_nan m = false ->
  let r := fold_left (fun m x => Py.max2 x m) xs m in
  is_nan r = false /\ le m r = true /\
  (forall x, x ∈ xs -> le x r = true) /\ (r = m \/ r ∈ xs).
Proof.
  intros Hxs. revert m.
  induction Hxs as [|x xs Hx Hxs IH]; intros m Hm; simpl.
  - split; [exact Hm |]. split; [by apply le_refl |].
    split; [| by left]. intros x Hin. by apply elem_of_nil in Hin.
  - pose proof (max2_no_nan x m Hx Hm) as Hn.
    destruct (IH (Py.max2 x m) Hn) as (Hr & Hle & Hall & Hmem).
    set (r := fold_left _ xs _) in *.
    assert (le m (Py.max2 x m) = true /\ le x (Py.max2 x m) = true)
      as [Hm1 Hm2].
    { unfold Py.max2. change (gt m x) with (lt x m).
      destruct (lt x m) eqn:Hlt.
      - split; [by apply le_refl | by apply lt_le].
      - split; [| by apply le_refl].
        destruct (le_total m x Hm Hx) as [H|H]; [exact H | congruence]. }
    split; [exact Hr |].
    split; [eapply le_trans; [| | | exact Hm1 | exact Hle]; done |].
    split.
    + intros y Hy. apply elem_of_cons in Hy as [->|Hy]; [| by apply Hall].
      eapply le_trans; [| | | exact Hm2 | exact Hle]; done.
    + destruct Hmem as [Heq|Hin]; [| right; apply elem_of_cons; by right].
      rewrite Heq. unfold Py.max2. destruct (gt m x); [by left |].
      right. apply elem_of_cons. by left.
Qed.

Lemma le_inf_l x : is_nan x = false -> le inf x = true -> x = inf.
Proof. by destruct x as [[]|[]| |[] ? ?]. Qed.

Lemma le_neg_inf_r x : is_nan x = false -> le x neg_inf = true -> x = neg_inf.
Proof. by destruct x as [[]|[]| |[] ? ?]. Qed.

Lemma min_from_inf (xs : list float) :
  Forall (fun x => is_nan x = false) xs -> xs <> [] ->
  is_min_of (fold_left (fun m x => Py.min2 x m) xs inf) xs.
Proof.
  intros Hxs Hne.
  destruct (fold_min2 xs inf Hxs eq_refl) as (Hr & _ & Hall & Hmem).
  split; [| exact Hall].
  destruct Hmem as [Heq|Hin]; [| exact Hin].
  destruct xs as [|x xs]; [done |]. rewrite Heq.
  assert (x = inf) as <-; [| apply elem_of_cons; by left].
  apply le_inf_l; [by inversion Hxs |].
  rewrite <- Heq. apply Hall, elem_of_cons. by left.
Qed.

Lemma max_from_neg_inf (xs : list float) :
  Forall (fun x => is_nan x = false) xs -> xs <> [] ->
  is_max_of (fold_left (fun m x => Py.max2 x m) xs neg_inf) xs.
Proof.
  intros Hxs Hne.
  destruct (fold_max2 xs neg_inf Hxs eq_refl) as (Hr & _ & Hall & Hmem).
  split; [| exact Hall].
  destruct Hmem as [Heq|Hin]; [| exact Hin].
  destruct xs as [|x xs]; [done |]. rewrite Heq.
  assert (x = neg_inf) as <-; [| apply elem_of_cons; by left].
  apply le_neg_inf_r; [by inversion Hxs |].
  rewrite <- Heq. apply Hall, elem_of_cons. by left.
Qed.

(** *** [max] and [numpy.argmax] over a list *)

Lemma argmax_from_bound (xs : list float) (mp : float) (mi i : nat) :
  (mi < i)%nat -> (Py.argmax_from mp mi i xs < i + length xs)%nat.
Proof.
  revert mp mi i. induction xs as [|x xs IH]; intros mp mi i Hlt; simpl.
  - lia.
  - destruct (negb (le x mp)).
    + destruct (is_nan x); [lia |].
      specialize (IH x i (S i)). lia.
    + specialize (IH mp mi (S i)). lia.
Qed.

Lemma argmax_bound (xs : list float) (k : nat) :
  Py.argmax xs = Some k -> (k < length xs)%nat.
Proof.
  destruct xs as [|x xs]; simpl; [discriminate |].
  intros [= <-]. destruct (is_nan x); [lia |].
  pose proof (argmax_from_bound xs x 0 1). lia.
Qed.

(** Away from NaN, the scan of [numpy.argmax] and the running maximum of
    [max] move together: the index found holds the maximum, nothing is
    above it and everything before it is strictly below. *)
Lemma argmax_from_spec (xs : list float) :
  Forall (fun x => is_nan x = false) xs ->
  forall (mp : float) (mi i : nat),
    is_nan mp = false -> (mi < i)%nat ->
    let k := Py.argmax_from mp mi i xs in
    let m := fold_left (fun m y => if gt y m then y else m) xs mp in
    is_nan m = false /\
    ((k = mi /\ m = mp) \/
     (exists j, k = (i + j)%nat /\ xs !! j = Some m /\ lt mp m = true)) /\
    le mp m = true /\
    (forall x, x ∈ xs -> le x m = true) /\
    (forall j x, xs !! j = Some x -> (i + j < k)%nat -> lt x m = true).
Proof.
  induction 1 as [|x xs Hx Hxs IH]; intros mp mi i Hmp Hlt; simpl.
  - split; [exact Hmp |]. split; [by left |].
    split; [by apply le_refl |].
    split; [intros x Hin; by apply elem_of_nil in Hin |].
    intros j x Hj. by rewrite lookup_nil in Hj.
  - rewrite (not_le_gt x mp Hx Hmp), Hx.
    destruct (gt x mp) eqn:Hgt.
    + destruct (IH x i (S i) Hx (Nat.lt_succ_diag_r i))
        as (Hm & HA & HB & HC & HD).
      set (k := Py.argmax_from x i (S i) xs) in *.
      set (m := fold_left _ xs x) in *.
      assert (lt mp m = true) as Hmpm
          by (eapply lt_le_trans; [| | | exact Hgt | exact HB]; done).
      split; [exact Hm |]. split; [| split; [| split]].
      * right. destruct HA as [[Hk Hmx]|(j & Hk & Hj & Hxm)].
        -- exists 0%nat. rewrite Hk, Hmx, Nat.add_0_r. by rewrite <- Hmx.
        -- exists (S j). split; [lia |]. by split.
      * by apply lt_le.
      * intros y Hy. apply elem_of_cons in Hy as [->|Hy]; [exact HB |].
        by apply HC.
      * intros [|j] y Hy Hjk; simpl in Hy.
        -- injection Hy as <-.
           destruct HA as [[Hk _]|(j & _ & _ & Hxm)]; [lia | exact Hxm].
        -- apply (HD j y Hy). lia.
    + assert (le x mp = true) as Hxmp.
      { destruct (le_total x mp Hx Hmp) as [H|H]; [exact H |].
        change (gt x mp) with (lt mp x) in Hgt. congruence. }
      destruct (IH mp mi (S i) Hmp (Nat.lt_lt_succ_r _ _ Hlt))
        as (Hm & HA & HB & HC & HD).
      set (k := Py.argmax_from mp mi (S i) xs) in *.
      set (m := fold_left _ xs mp) in *.
      split; [exact Hm |]. split; [| split; [| split]].
      * destruct HA as [[Hk Hmx]|(j & Hk & Hj & Hxm)]; [by left |].
        right. exists (S j). split; [lia |]. by split.
      * exact HB.
      * intros y Hy. apply elem_of_cons in Hy as [->|Hy]; [| by apply HC].
        eapply le_trans; [| | | exact Hxmp | exact HB]; done.
      * intros [|j] y Hy Hjk; simpl in Hy.
        -- injection Hy as <-.
           destruct HA as [[Hk _]|(j & _ & _ & Hxm)]; [lia |].
           eapply le_lt_trans; [| | | exact Hxmp | exact Hxm]; done.
        -- apply (HD j y Hy). lia.
Qed.

Lemma argmax_max_list (xs : list float) :
  Forall (fun x => is_nan x = false) xs -> xs <> [] ->
  exists k m,
    Py.argmax xs = Some k /\ Py.max_list xs = Some m /\
    xs !! k = Some m /\
    (forall x, x ∈ xs -> le x m = true) /\
    (forall j x, (j < k)%nat -> xs !! j = Some x -> lt x m = true).
Proof.
  intros Hxs Hne. destruct xs as [|x xs]; [done |].
  inversion Hxs as [|?? Hx Hxs']; subst.
  destruct (argmax_from_spec xs Hxs' x 0%nat 1%nat Hx Nat.lt_0_1)
    as (Hm & HA & HB & HC & HD).
  simpl. rewrite Hx.
  set (k := Py.argmax_from x 0 1 xs) in *.
  set (m := fold_left _ xs x) in *.
  exists k, m. split; [reflexivity |]. split; [reflexivity |].
  split; [| split].
  - destruct HA as [[-> ->]|(j & -> & Hj & _)]; [reflexivity | exact Hj].
  - intros y Hy. apply elem_of_cons in Hy as [->|Hy]; [exact HB |].
    by apply HC.
  - intros [|j] y Hjk Hy; simpl in Hy.
    + injection Hy as <-.
      destruct HA as [[Hk _]|(j & _ & _ & Hxm)]; [lia | exact Hxm].
    + apply (HD j y Hy). lia.
Qed.

End PyFacts.

(** ** The [Track] class *)
Module TrackFacts.
Import PyFloat PyFloatFacts PyFacts Heap Collab TrackPy.
Local Open Scope py_scope.

Section WithSegment.
Context {Seg Points Diff Strategy Num : Type}.
Context `{!SegmentAPI Seg Points Diff Strategy Num} `{!RtreeAPI Seg}.

Implicit Types (σ : Heap.store Seg) (self track : tref) (r : sref).

(** *** [segmentAt] *)

(** C9 (as amended). [segmentAt(i)] gives the i-th segment for
    [0 <= i < n], the (n+i)-th one for [-n <= i < 0] (an index counted from
    the end), and raises the out-of-range error for every other integer;
    the store is not changed. Here [n] is the number of segments. *)
Theorem segmentAt_spec σ self (i : Z) :
  let ss := segments (tracks σ !!! self) in
  let n := Z.of_nat (length ss) in
  ((0 <= i < n)%Z ->
     exists r, ss !! Z.to_nat i = Some r /\
               segmentAt self i σ = (Returned r, σ)) /\
  ((- n <= i < 0)%Z ->
     exists r, ss !! Z.to_nat (n + i) = Some r /\
               segmentAt self i σ = (Returned r, σ)) /\
  ((i < - n \/ n <= i)%Z -> segmentAt self i σ = (Raised IndexError, σ)).
Proof.
  intros ss n. unfold segmentAt, bind, get_track. fold ss.
  repeat split.
  - intros Hi. destruct (lookup_lt_is_Some_2 ss (Z.to_nat i)) as [r Hr];
      [lia |].
    exists r. split; [exact Hr |].
    rewrite getitem_nonneg by lia. by rewrite Hr.
  - intros Hi. destruct (lookup_lt_is_Some_2 ss (Z.to_nat (n + i))) as [r Hr];
      [lia |].
    exists r. split; [exact Hr |].
    rewrite getitem_negative by (fold n; lia). fold n. by rewrite Hr.
  - intros Hi. by rewrite getitem_out_of_range by (fold n; lia).
Qed.

(** *** [__init__] *)

(** C6. The constructor stores the input segments sorted ascending by start
    time, and the sort is stable: it stores a rearrangement of the input,
    in non-decreasing order of start time, in which the segments of each
    start time stand in their input order. It also stores the name and
    clears [preprocessed]. *)
Theorem Track_init_sorted σ (name : string) (ss : list sref) :
  exists self σ' t,
    Track_init name ss σ = (Returned self, σ') /\
    tracks σ !! self = None /\
    tracks σ' !! self = Some t /\
    Heap.name t = name /\ preprocessed t = false /\
    segments t ≡ₚ ss /\
    StronglySorted (Py.key_le (start_time_of σ)) (segments t) /\
    (forall v : Z,
        filter (fun r => start_time_of σ r = v) (segments t)
        = filter (fun r => start_time_of σ r = v) ss).
Proof.
  eexists _, _, _. unfold Track_init, new_track; simpl.
  split; [reflexivity |].
  split; [apply not_elem_of_dom, is_fresh |].
  split; [apply lookup_insert_eq |]. simpl.
  repeat split.
  - apply sorted_perm.
  - apply sorted_sorted.
  - intros v. apply sorted_stable.
Qed.

(** *** [getBounds] *)

(** The loop of [getBounds] keeps four independent running extrema. *)
Lemma fold_bounds_step σ (ss : list sref) (acc : BBox) :
  fold_left (bounds_step σ) ss acc =
  (fold_left (fun m x => Py.min2 x m) (map bb_minLat (boxes_of σ ss))
             (bb_minLat acc),
   fold_left (fun m x => Py.min2 x m) (map bb_minLon (boxes_of σ ss))
             (bb_minLon acc),
   fold_left (fun m x => Py.max2 x m) (map bb_maxLat (boxes_of σ ss))
             (bb_maxLat acc),
   fold_left (fun m x => Py.max2 x m) (map bb_maxLon (boxes_of σ ss))
             (bb_maxLon acc)).
Proof.
  revert acc. induction ss as [|r ss IH]; intros [[[a b] c] d]; simpl.
  - reflexivity.
  - rewrite IH. unfold bounds_step.
    by destruct (seg_getBounds (segs σ !!! r)) as [[[a' b'] c'] d'].
Qed.

(** C7. [getBounds] gives [(minLat, minLon, maxLat, maxLon)], each the
    least (resp. greatest) of the segments' own values for that coordinate,
    and the sentinel [(+inf, +inf, -inf, -inf)] for a track without
    segments; it never fails and changes nothing. Coordinates are numbers
    (not NaN). *)
Theorem getBounds_spec σ self :
  let ss := segments (tracks σ !!! self) in
  Forall box_no_nan (boxes_of σ ss) ->
  exists b,
    getBounds self σ = (Returned b, σ) /\
    (ss = [] -> b = (inf, inf, neg_inf, neg_inf)) /\
    (ss <> [] ->
       is_min_of (bb_minLat b) (map bb_minLat (boxes_of σ ss)) /\
       is_min_of (bb_minLon b) (map bb_minLon (boxes_of σ ss)) /\
       is_max_of (bb_maxLat b) (map bb_maxLat (boxes_of σ ss)) /\
       is_max_of (bb_maxLon b) (map bb_maxLon (boxes_of σ ss))).
Proof.
  intros ss Hok. eexists. unfold getBounds, bind, get_track. fold ss.
  split; [reflexivity |]. split.
  - intros ->. reflexivity.
  - intros Hne. rewrite fold_bounds_step.
    assert (forall f : BBox -> float,
               (forall b, box_no_nan b -> is_nan (f b) = false) ->
               Forall (fun x => is_nan x = false) (map f (boxes_of σ ss)))
      as Hcoord.
    { intros f Hf. apply Forall_fmap. eapply Forall_impl; [exact Hok |].
      exact Hf. }
    assert (forall f : BBox -> float, map f (boxes_of σ ss) <> []) as Hnn.
    { intros f Hnil. apply Hne. unfold boxes_of in Hnil.
      by destruct ss. }
    split; [| split; [| split]].
    + exact (min_from_inf _ (Hcoord bb_minLat (fun b H => proj1 H))
                          (Hnn _)).
    + exact (min_from_inf _
               (Hcoord bb_minLon (fun b H => proj1 (proj2 H))) (Hnn _)).
    + exact (max_from_neg_inf _
               (Hcoord bb_maxLat (fun b H => proj1 (proj2 (proj2 H))))
               (Hnn _)).
    + exact (max_from_neg_inf _
               (Hcoord bb_maxLon (fun b H => proj2 (proj2 (proj2 H))))
               (Hnn _)).
Qed.

(** *** The in-place stages *)

Lemma for_each_call_seg (ev : sref -> event) (f : Seg -> Seg)
    (rs : list sref) σ :
  for_each (fun r => call_seg (ev r) f r) rs σ
  = (Returned tt,
     mkStore (tracks σ) (apply_all f rs (segs σ)) (calls σ ++ map ev rs)).
Proof.
  revert σ. induction rs as [|r rs IH]; intros σ; simpl.
  - unfold ret. rewrite app_nil_r. by destruct σ.
  - unfold bind, call_seg at 1. rewrite IH; simpl.
    by rewrite <- app_assoc.
Qed.

(** A stage that calls one method on every segment: it returns the track
    and leaves the track objects as they are. *)
Lemma stage_run (ev : sref -> event) (f : Seg -> Seg) self σ :
  (t <- get_track self;;
   for_each (fun r => call_seg (ev r) f r) (segments t);;;
   ret self) σ
  = (Returned self,
     mkStore (tracks σ)
             (apply_all f (segments (tracks σ !!! self)) (segs σ))
             (calls σ ++ map ev (segments (tracks σ !!! self)))).
Proof.
  unfold bind at 1, get_track. unfold bind. by rewrite for_each_call_seg.
Qed.

Lemma removeNoise_run self (var : Num) σ :
  removeNoise self var σ
  = (Returned self,
     mkStore (tracks σ)
             (apply_all (seg_removeNoise var)
                        (segments (tracks σ !!! self)) (segs σ))
             (calls σ ++ map ERemoveNoise (segments (tracks σ !!! self)))).
Proof. apply stage_run. Qed.

Lemma smooth_run self (strategy : Strategy) (noise : Num) σ :
  smooth self strategy noise σ
  = (Returned self,
     mkStore (tracks σ)
             (apply_all (seg_smooth strategy noise)
                        (segments (tracks σ !!! self)) (segs σ))
             (calls σ ++ map ESmooth (segments (tracks σ !!! self)))).
Proof. apply stage_run. Qed.

Lemma simplify_run self (topology_only : bool) (dist : Num) σ :
  simplify self topology_only dist σ
  = (Returned self,
     mkStore (tracks σ)
             (apply_all (seg_simplify topology_only dist)
                        (segments (tracks σ !!! self)) (segs σ))
             (calls σ ++ map ESimplify (segments (tracks σ !!! self)))).
Proof. apply stage_run. Qed.

Lemma compute_metrics_run self σ :
  compute_metrics self σ
  = (Returned self,
     mkStore (tracks σ)
             (apply_all seg_compute_metrics
                        (segments (tracks σ !!! self)) (segs σ))
             (calls σ ++ map EComputeMetrics (segments (tracks σ !!! self)))).
Proof. apply stage_run. Qed.

Lemma append_new_run (s : list Points) (acc : list sref) σ :
  exists out σ',
    append_new s acc σ = (Returned out, σ') /\
    tracks σ' = tracks σ /\ calls σ' = calls σ /\
    length out = (length acc + length s)%nat.
Proof.
  revert acc σ. induction s as [|a s IH]; intros acc σ; simpl.
  - exists acc, σ. repeat split. lia.
  - unfold bind, new_seg at 1.
    destruct (IH (acc ++ [fresh (dom (segs σ))])
                 (mkStore (tracks σ)
                    (<[fresh (dom (segs σ)) := Segment_init a]> (segs σ))
                    (calls σ)))
      as (out & σ' & Hrun & Ht & Hc & Hlen).
    exists out, σ'. rewrite Hrun. repeat split; try done.
    rewrite Hlen, length_app. simpl. lia.
Qed.

Lemma segment_loop_run (eps min_time : Num) (todo acc : list sref) σ :
  exists out σ',
    segment_loop eps min_time todo acc σ = (Returned out, σ') /\
    tracks σ' = tracks σ /\
    calls σ' = calls σ ++ map ESegment todo.
Proof.
  revert acc σ. induction todo as [|r todo IH]; intros acc σ; simpl.
  - exists acc, σ. by rewrite app_nil_r.
  - unfold bind at 1, get_seg. unfold bind at 1, call_seg at 1.
    unfold bind at 1.
    match goal with |- context [append_new ?s ?a ?st] =>
      destruct (append_new_run s a st) as (new & σ1 & Hrun & Ht & Hc & _)
    end.
    rewrite Hrun.
    destruct (IH new σ1) as (out & σ' & Hrun' & Ht' & Hc').
    exists out, σ'. rewrite Hrun'. repeat split.
    + by rewrite Ht', Ht.
    + rewrite Hc', Hc; simpl. by rewrite <- app_assoc.
Qed.

Lemma segment_run self (eps min_time : Num) σ :
  exists out σ',
    segment self eps min_time σ = (Returned self, σ') /\
    tracks σ' = alter (fun t => mkTrack (name t) out (preprocessed t))
                      self (tracks σ) /\
    calls σ' = calls σ ++ map ESegment (segments (tracks σ !!! self)).
Proof.
  unfold segment, bind at 1, get_track. unfold bind at 1.
  destruct (segment_loop_run eps min_time
              (segments (tracks σ !!! self)) [] σ)
    as (out & σ1 & Hrun & Ht & Hc).
  rewrite Hrun. unfold bind, set_segments, ret.
  eexists out, _. split; [reflexivity |]. simpl. by rewrite Ht, Hc.
Qed.

(** Assigning an attribute of a track keeps what the other attribute
    reads. *)
Lemma segments_after_set_name self (n : string) (m : gmap tref Track) :
  segments (alter (fun t => mkTrack n (segments t) (preprocessed t)) self m
            !!! self)
  = segments (m !!! self).
Proof.
  rewrite lookup_total_alter_eq, lookup_total_alt.
  by destruct (m !! self).
Qed.

(** X2. [generateName] gives ["EmptyTrack"] for a track without segments
    and otherwise the formatted time of the first point of the first
    segment followed by [".gpx"]; the store is not changed. *)
Theorem generateName_spec self (f : string) σ :
  (segments (tracks σ !!! self) = [] ->
   generateName self f σ = (Returned "EmptyTrack", σ)) /\
  (forall r rest,
      segments (tracks σ !!! self) = r :: rest ->
      generateName self f σ
      = (Returned (seg_first_strftime (segs σ !!! r) f +:+ ".gpx"), σ)).
Proof.
  split.
  - intros Hss. unfold generateName, bind at 1, get_track. by rewrite Hss.
  - intros r rest Hss. unfold generateName, bind at 1, get_track.
    rewrite Hss. simpl.
    unfold segmentAt, get_track, get_seg, bind, ret. by rewrite Hss.
Qed.

Lemma generateName_run self (f : string) σ :
  exists nm, generateName self f σ = (Returned nm, σ).
Proof.
  unfold generateName, bind at 1, get_track.
  destruct (segments (tracks σ !!! self)) as [|r rs] eqn:Hss; simpl.
  - by eexists.
  - unfold segmentAt, get_track, bind. rewrite Hss. simpl. by eexists.
Qed.

(** *** [toTrip] *)

(** [toTrip] step by step: the name it settles on, the segment list [out]
    that segmentation installs, and the calls it makes. *)
Lemma toTrip_run self (name : string) (noise_var : Num)
    (smooth_strategy : Strategy)
    (smooth_noise seg_eps seg_min_time dist max_time : Num)
    (file_format : string) σ :
  exists (nm : string) (out : list sref) σ',
    (if negb (String.length name =? 0)%nat
     then nm = Heap.name (tracks σ !!! self)
     else generateName self file_format σ = (Returned nm, σ)) /\
    toTrip self name noise_var smooth_strategy smooth_noise seg_eps
           seg_min_time dist max_time file_format σ = (Returned self, σ') /\
    tracks σ' =
      alter (fun t => mkTrack nm (segments t) (preprocessed t)) self
        (alter (fun t => mkTrack (Heap.name t) out (preprocessed t)) self
               (tracks σ)) /\
    calls σ' =
      calls σ ++ map ESmooth (segments (tracks σ !!! self))
              ++ map EComputeMetrics (segments (tracks σ !!! self))
              ++ map ESegment (segments (tracks σ !!! self))
              ++ map EComputeMetrics (segments (tracks σ' !!! self))
              ++ map ESimplify (segments (tracks σ' !!! self))
              ++ map EComputeMetrics (segments (tracks σ' !!! self)).
Proof.
  assert (exists nm,
             (if negb (String.length name =? 0)%nat
              then (t <- get_track self;; ret (Heap.name t))
              else generateName self file_format) σ = (Returned nm, σ) /\
             (if negb (String.length name =? 0)%nat
              then nm = Heap.name (tracks σ !!! self)
              else generateName self file_format σ = (Returned nm, σ)))
    as (nm & Hname & Hnm).
  { destruct (negb (String.length name =? 0)%nat).
    - by eexists.
    - destruct (generateName_run self file_format σ) as [nm Hg]. by exists nm. }
  unfold toTrip. unfold bind at 1. rewrite Hname.
  unfold bind at 1. rewrite smooth_run.
  unfold bind at 1. rewrite compute_metrics_run. cbn [tracks calls segs].
  unfold bind at 1.
  match goal with |- context [segment self seg_eps seg_min_time ?st] =>
    destruct (segment_run self seg_eps seg_min_time st)
      as (out & σ3 & Hrun & Ht & Hc)
  end.
  rewrite Hrun. cbn [tracks calls segs] in Ht, Hc.
  unfold bind at 1. rewrite compute_metrics_run.
  unfold bind at 1. rewrite simplify_run. cbn [tracks calls segs].
  unfold bind at 1. rewrite compute_metrics_run. cbn [tracks calls segs].
  unfold bind, set_name, ret. cbn [tracks calls segs].
  exists nm, out. eexists. split; [exact Hnm |].
  split; [reflexivity |]. cbn [tracks calls segs].
  split; [by rewrite Ht |].
  rewrite segments_after_set_name, Hc, <- !app_assoc. reflexivity.
Qed.

(** What [toTrip] leaves in the [name] attribute of an existing track. *)
Lemma toTrip_name_run self (name : string) (noise_var : Num)
    (smooth_strategy : Strategy)
    (smooth_noise seg_eps seg_min_time dist max_time : Num)
    (file_format : string) σ (t : Track) :
  tracks σ !! self = Some t ->
  exists σ',
    toTrip self name noise_var smooth_strategy smooth_noise seg_eps
           seg_min_time dist max_time file_format σ = (Returned self, σ') /\
    if negb (String.length name =? 0)%nat
    then Heap.name (tracks σ' !!! self) = Heap.name t
    else generateName self file_format σ
         = (Returned (Heap.name (tracks σ' !!! self)), σ).
Proof.
  intros Ht.
  destruct (toTrip_run self name noise_var smooth_strategy smooth_noise
              seg_eps seg_min_time dist max_time file_format σ)
    as (nm & out & σ' & Hnm & Hrun & Htracks & _).
  exists σ'. split; [exact Hrun |].
  assert (Heap.name (tracks σ' !!! self) = nm) as ->.
  { rewrite Htracks, lookup_total_alter_eq, lookup_alter_eq, Ht.
    reflexivity. }
  destruct (negb (String.length name =? 0)%nat); [| exact Hnm].
  rewrite Hnm. by rewrite (lookup_total_correct _ _ _ Ht).
Qed.

(** X1. Called with the empty name on an existing track, [toTrip] names
    the track with what [generateName(file_format)] gives on the track as
    it stands before the pipeline runs, and returns the track. *)
Theorem toTrip_generated_name self (noise_var : Num)
    (smooth_strategy : Strategy)
    (smooth_noise seg_eps seg_min_time dist max_time : Num)
    (file_format : string) σ (t : Track) :
  tracks σ !! self = Some t ->
  exists σ',
    toTrip self "" noise_var smooth_strategy smooth_noise seg_eps
           seg_min_time dist max_time file_format σ = (Returned self, σ') /\
    generateName self file_format σ
    = (Returned (Heap.name (tracks σ' !!! self)), σ).
Proof.
  intros Ht.
  exact (toTrip_name_run self "" noise_var smooth_strategy smooth_noise
           seg_eps seg_min_time dist max_time file_format σ t Ht).
Qed.

(** *** [merge_and_fit] *)

Lemma merge_step_run self track (e : corr Diff) σ :
  merge_step self track e σ =
  match e with
  | NoMatch => (Raised ValueError, σ)
  | Match i j _ =>
      match Py.getitem (segments (tracks σ !!! self)) i,
            Py.getitem (segments (tracks σ !!! track)) j with
      | Some a, Some b =>
          (Returned tt,
           mkStore (tracks σ)
                   (alter (fun v => seg_merge_and_fit v (segs σ !!! b)) a
                          (segs σ))
                   (calls σ ++ [EMergeAndFit a b]))
      | _, _ => (Raised IndexError, σ)
      end
  end.
Proof.
  destruct e as [i j d|]; [| reflexivity].
  unfold merge_step, bind, get_track, get_seg, call_seg, raise; simpl.
  destruct (Py.getitem (segments (tracks σ !!! self)) i); [| reflexivity].
  by destruct (Py.getitem (segments (tracks σ !!! track)) j).
Qed.

Lemma merge_loop_run self track (ss ts : list sref)
    (ff : list (corr Diff)) σ :
  segments (tracks σ !!! self) = ss ->
  segments (tracks σ !!! track) = ts ->
  exists o σ',
    for_each (merge_step self track) ff σ = (o, σ') /\
    tracks σ' = tracks σ /\
    (forall r,
        (forall i j d, Match i j d ∈ ff -> Py.getitem ss i <> Some r) ->
        segs σ' !! r = segs σ !! r) /\
    (Forall (readable ss ts) ff ->
       o = Returned tt /\ calls σ' = calls σ ++ omap (merge_of ss ts) ff).
Proof.
  revert σ. induction ff as [|e ff IH]; intros σ Hss Hts; simpl.
  - exists (Returned tt), σ. do 3 (split; [done |]).
    intros _. by rewrite app_nil_r.
  - unfold bind. rewrite merge_step_run, Hss, Hts.
    destruct e as [i j d|].
    2:{ eexists _, _. do 3 (split; [done |]).
        intros Hall; exfalso; inversion Hall as [|?? (?&?&?&?&_)]; done. }
    destruct (Py.getitem ss i) as [a|] eqn:Ha.
    2:{ eexists _, _. do 3 (split; [done |]).
        intros Hall; exfalso;
          inversion Hall as [|?? (?&?&?&Heq&[? Hs]&_)];
          inversion Heq; subst; congruence. }
    destruct (Py.getitem ts j) as [b|] eqn:Hb.
    2:{ eexists _, _. do 3 (split; [done |]).
        intros Hall; exfalso;
          inversion Hall as [|?? (?&?&?&Heq&_&[? Hs])];
          inversion Heq; subst; congruence. }
    match goal with |- context [for_each _ ff ?st] =>
      destruct (IH st) as (o & σ' & Hrun & Ht & Hframe & Hret);
        [exact Hss | exact Hts |]
    end.
    exists o, σ'. split; [exact Hrun |]. split; [exact Ht |]. split.
    + intros r Hr. rewrite Hframe.
      * simpl. apply lookup_alter_ne. intros ->.
        apply (Hr i j d); [apply elem_of_cons; by left | exact Ha].
      * intros i' j' d' Hin. apply (Hr i' j' d'), elem_of_cons. by right.
    + intros Hall. inversion Hall as [|?? _ Hall']; subst.
      destruct (Hret Hall') as [-> Hc]. split; [reflexivity |].
      rewrite Hc. simpl. rewrite Ha, Hb. simpl. by rewrite <- app_assoc.
Qed.

(** One loop step run from two stores that differ only at an object the
    entry names neither as receiver nor as argument. *)
Lemma merge_step_agree self track (e : corr Diff) (r : sref) σ1 σ2 :
  agree_except r σ1 σ2 ->
  (forall i j d, e = Match i j d ->
     Py.getitem (segments (tracks σ1 !!! self)) i <> Some r /\
     Py.getitem (segments (tracks σ1 !!! track)) j <> Some r) ->
  exists o σ1' σ2',
    merge_step self track e σ1 = (o, σ1') /\
    merge_step self track e σ2 = (o, σ2') /\
    agree_except r σ1' σ2'.
Proof.
  intros (Ht & Hc & Hs) Hr. rewrite !merge_step_run, <- Ht.
  destruct e as [i j d|]; [| by eexists _, _, _].
  destruct (Hr i j d eq_refl) as [Hi Hj].
  destruct (Py.getitem (segments (tracks σ1 !!! self)) i) as [a|];
    [| by eexists _, _, _].
  destruct (Py.getitem (segments (tracks σ1 !!! track)) j) as [b|];
    [| by eexists _, _, _].
  eexists _, _, _. do 2 (split; [reflexivity |]).
  split; [reflexivity |]. split; [simpl; by rewrite Hc |]. simpl.
  intros r' Hr'.
  assert (segs σ1 !!! b = segs σ2 !!! b) as ->.
  { rewrite !lookup_total_alt, Hs; [reflexivity | congruence]. }
  rewrite !lookup_alter. case_decide; [subst r' |]; by rewrite Hs.
Qed.

Lemma merge_loop_agree self track (ff : list (corr Diff)) (r : sref) σ1 σ2 :
  agree_except r σ1 σ2 ->
  (forall i j d, Match i j d ∈ ff ->
     Py.getitem (segments (tracks σ1 !!! self)) i <> Some r /\
     Py.getitem (segments (tracks σ1 !!! track)) j <> Some r) ->
  exists o σ1' σ2',
    for_each (merge_step self track) ff σ1 = (o, σ1') /\
    for_each (merge_step self track) ff σ2 = (o, σ2') /\
    agree_except r σ1' σ2'.
Proof.
  revert σ1 σ2. induction ff as [|e ff IH]; intros σ1 σ2 Hag Hr; simpl.
  - by exists (Returned tt), σ1, σ2.
  - destruct (merge_step_agree self track e r σ1 σ2 Hag)
      as (o & σ1' & σ2' & H1 & H2 & Hag').
    { intros i j d ->. apply (Hr i j d), elem_of_cons. by left. }
    unfold bind. rewrite H1, H2. destruct o as [[]|x].
    + apply IH; [exact Hag' |].
      assert (tracks σ1' = tracks σ1) as ->.
      { rewrite merge_step_run in H1.
        destruct e as [i j d|]; [| by inversion H1].
        destruct (Py.getitem _ i); [| by inversion H1].
        destruct (Py.getitem _ j); by inversion H1. }
      intros i j d Hin. apply (Hr i j d), elem_of_cons. by right.
    + by exists (Raised x), σ1', σ2'.
Qed.

(** C8 (as amended). [merge_and_fit] changes no track object, and changes
    no segment object other than the receivers [self.segments[i]] of the
    triples in the list, where a negative [i] counts from the end; this
    holds whether the call returns or raises. When every entry is a triple
    whose two indices can be read, the call returns [self], having made
    exactly one segment-level merge per triple, in list order, each with
    the argument [track.segments[j]]. The state of a segment object that
    no triple names, as receiver or as argument, has no influence: run
    from a store that differs only there, the call ends the same way and
    leaves every other object in the same state. *)
Theorem merge_and_fit_frame self track (ff : list (corr Diff))
    (threshold : Num) σ :
  let ss := segments (tracks σ !!! self) in
  let ts := segments (tracks σ !!! track) in
  exists o σ',
    merge_and_fit self track ff threshold σ = (o, σ') /\
    tracks σ' = tracks σ /\
    (forall r,
        (forall i j d, Match i j d ∈ ff -> Py.getitem ss i <> Some r) ->
        segs σ' !! r = segs σ !! r) /\
    (Forall (readable ss ts) ff ->
       o = Returned self /\ calls σ' = calls σ ++ omap (merge_of ss ts) ff) /\
    (forall r σ2,
        agree_except r σ σ2 ->
        (forall i j d, Match i j d ∈ ff ->
           Py.getitem ss i <> Some r /\ Py.getitem ts j <> Some r) ->
        exists σ2',
          merge_and_fit self track ff threshold σ2 = (o, σ2') /\
          agree_except r σ' σ2').
Proof.
  intros ss ts.
  destruct (merge_loop_run self track ss ts ff σ eq_refl eq_refl)
    as (o & σ' & Hrun & Ht & Hframe & Hret).
  assert (forall r σ2,
             agree_except r σ σ2 ->
             (forall i j d, Match i j d ∈ ff ->
                Py.getitem ss i <> Some r /\ Py.getitem ts j <> Some r) ->
             exists σ2',
               for_each (merge_step self track) ff σ2 = (o, σ2') /\
               agree_except r σ' σ2') as Hag.
  { intros r σ2 Hσ2 Hr.
    destruct (merge_loop_agree self track ff r σ σ2 Hσ2 Hr)
      as (o' & σ1' & σ2' & H1 & H2 & Hag').
    rewrite Hrun in H1. injection H1 as <- <-. by exists σ2'. }
  unfold merge_and_fit, bind. rewrite Hrun.
  destruct o as [[]|e].
  - exists (Returned self), σ'. do 3 (split; [done |]). split.
    + intros Hall. split; [reflexivity | by apply Hret].
    + intros r σ2 Hσ2 Hr. destruct (Hag r σ2 Hσ2 Hr) as (σ2' & H2 & Hag').
      exists σ2'. by rewrite H2.
  - exists (Raised e), σ'. do 3 (split; [done |]). split.
    + intros Hall; by destruct (Hret Hall).
    + intros r σ2 Hσ2 Hr. destruct (Hag r σ2 Hσ2 Hr) as (σ2' & H2 & Hag').
      exists σ2'. by rewrite H2.
Qed.

(** C10. The outcome of [merge_and_fit] and the whole store it leaves
    (segment states and the log of merges made) are the same for two
    correspondence lists that agree on their index pairs, whatever their
    diff payloads, and for any two thresholds. *)
Theorem merge_and_fit_indices_only self track (ff1 ff2 : list (corr Diff))
    (threshold1 threshold2 : Num) σ :
  map index_pair ff1 = map index_pair ff2 ->
  merge_and_fit self track ff1 threshold1 σ
  = merge_and_fit self track ff2 threshold2 σ.
Proof.
  intros Heq. unfold merge_and_fit, bind.
  assert (for_each (merge_step self track) ff1 σ
          = for_each (merge_step self track) ff2 σ) as ->; [| reflexivity].
  revert ff2 σ Heq.
  induction ff1 as [|e1 ff1 IH]; intros [|e2 ff2] σ Heq; try discriminate.
  - reflexivity.
  - simpl in Heq. injection Heq as He Hrest. simpl. unfold bind.
    assert (merge_step self track e1 σ = merge_step self track e2 σ) as ->.
    { rewrite !merge_step_run.
      destruct e1 as [i1 j1 d1|], e2 as [i2 j2 d2|]; try discriminate;
        [| reflexivity].
      simpl in He. by injection He as -> ->. }
    destruct (merge_step self track e2 σ) as [[[]|x] σ1]; [| reflexivity].
    by apply IH.
Qed.

(** *** [similarity] *)

Lemma best_match_empty (idx : Index) (i : nat) (Q : Seg) :
  candidates idx Q = [] -> best_match idx i Q = Returned (zero, NoMatch).
Proof.
  unfold candidates, best_match. intros ->. reflexivity.
Qed.

(** The loop body never raises: a non-empty score list has a maximum and
    an arg-max within range. *)
Lemma best_match_total (idx : Index) (i : nat) (Q : Seg) :
  exists s d,
    best_match idx i Q = Returned (s, d) /\
    (d = NoMatch \/
     exists c, c ∈ candidates idx Q /\
               d = Match (Z.of_nat (id c)) (Z.of_nat i) (diff_of Q c)).
Proof.
  unfold best_match. fold (candidates idx Q).
  destruct (candidates idx Q) as [|c cs] eqn:Hc.
  { exists zero, NoMatch. split; [reflexivity | by left]. }
  change (0 <? length (res_siml Q (c :: cs)))%nat with true. cbv iota.
  destruct (Py.max_list (res_siml Q (c :: cs))) as [best|] eqn:Hmax;
    [| discriminate].
  destruct (Py.argmax (res_siml Q (c :: cs))) as [k|] eqn:Harg;
    [| discriminate].
  apply argmax_bound in Harg. unfold res_siml in Harg.
  rewrite length_map in Harg.
  destruct (lookup_lt_is_Some_2 (c :: cs) k Harg) as [c' Hc'].
  unfold res_diff. rewrite list_lookup_fmap, Hc'. simpl.
  eexists _, _. split; [reflexivity |]. right. exists c'.
  split; [by eapply list_elem_of_lookup_2 | reflexivity].
Qed.

Lemma best_match_best (idx : Index) (i : nat) (Q : Seg) :
  candidates idx Q <> [] ->
  Forall (fun c => is_nan (score_of Q c) = false) (candidates idx Q) ->
  exists k c,
    candidates idx Q !! k = Some c /\
    best_match idx i Q
    = Returned (score_of Q c,
                Match (Z.of_nat (id c)) (Z.of_nat i) (diff_of Q c)) /\
    (forall c', c' ∈ candidates idx Q ->
                le (score_of Q c') (score_of Q c) = true) /\
    (forall j c', (j < k)%nat -> candidates idx Q !! j = Some c' ->
                  lt (score_of Q c') (score_of Q c) = true).
Proof.
  intros Hne Hnan. unfold best_match. fold (candidates idx Q).
  set (cs := candidates idx Q) in *.
  assert (res_siml Q cs = map (score_of Q) cs) as Hsiml by reflexivity.
  destruct (argmax_max_list (res_siml Q cs))
    as (k & m & Harg & Hmax & Hk & Hle & Hlt).
  { rewrite Hsiml. by apply Forall_fmap. }
  { rewrite Hsiml. by destruct cs. }
  assert ((0 <? length (res_siml Q cs))%nat = true) as ->.
  { rewrite Hsiml, length_map. destruct cs; [done | reflexivity]. }
  rewrite Hmax, Harg. rewrite Hsiml in Hk, Hle, Hlt.
  rewrite list_lookup_fmap in Hk.
  destruct (cs !! k) as [c|] eqn:Hc; [| discriminate].
  injection Hk as <-.
  exists k, c. split; [exact Hc |]. split; [| split].
  - unfold res_diff. by rewrite list_lookup_fmap, Hc.
  - intros c' Hin. apply Hle. by apply list_elem_of_fmap_2.
  - intros j c' Hjk Hj. apply (Hlt j); [exact Hjk |].
    by rewrite list_lookup_fmap, Hj.
Qed.

(** The scan appends, for each query segment in turn, what the loop body
    gives for it. *)
Lemma scan_run σ (idx : Index) (todo : list sref) (i : nat)
    (acc_s : list float) (acc_d : list (corr Diff)) :
  exists ss dd,
    scan σ idx i todo acc_s acc_d = Returned (acc_s ++ ss, acc_d ++ dd) /\
    length ss = length todo /\ length dd = length todo /\
    (forall j q, todo !! j = Some q ->
       exists s d,
         best_match idx (i + j) (segs σ !!! q) = Returned (s, d) /\
         ss !! j = Some s /\ dd !! j = Some d).
Proof.
  revert i acc_s acc_d.
  induction todo as [|q todo IH]; intros i acc_s acc_d; simpl.
  - exists [], []. rewrite !app_nil_r. repeat split.
    intros j q Hj. by rewrite lookup_nil in Hj.
  - destruct (best_match_total idx i (segs σ !!! q)) as (s & d & Hbm & _).
    rewrite Hbm.
    destruct (IH (S i) (acc_s ++ [s]) (acc_d ++ [d]))
      as (ss & dd & Hrun & Hls & Hld & Hall).
    exists (s :: ss), (d :: dd). rewrite Hrun, <- !app_assoc. simpl.
    split; [reflexivity |]. split; [by rewrite Hls |].
    split; [by rewrite Hld |].
    intros [|j] q' Hj; simpl in Hj.
    + injection Hj as <-. rewrite Nat.add_0_r. by exists s, d.
    + destruct (Hall j q' Hj) as (s' & d' & Hbm' & Hs' & Hd').
      exists s', d'. replace (i + S j)%nat with (S i + j)%nat by lia.
      by repeat split.
Qed.

Lemma similarity_lists_run σ self track :
  exists final_siml final_diff,
    similarity_lists self track σ = Returned (final_siml, final_diff) /\
    length final_siml = length (segments (tracks σ !!! track)) /\
    length final_diff = length (segments (tracks σ !!! track)) /\
    (forall i q, segments (tracks σ !!! track) !! i = Some q ->
       exists s d,
         best_match (index_of σ self) i (segs σ !!! q) = Returned (s, d) /\
         final_siml !! i = Some s /\ final_diff !! i = Some d).
Proof.
  unfold similarity_lists.
  destruct (scan_run σ (index_of σ self)
              (segments (tracks σ !!! track)) 0 [] [])
    as (ss & dd & Hrun & Hls & Hld & Hall).
  exists ss, dd. by rewrite Hrun.
Qed.

Lemma build_index_run σ (ss : list sref) (n : nat) (idx : Index) :
  build_index σ ss n idx = idx ++ imap (fun j => entry_of σ (n + j)) ss.
Proof.
  revert n idx. induction ss as [|r ss IH]; intros n idx; simpl.
  - by rewrite app_nil_r.
  - rewrite IH. unfold Index_insert. rewrite <- app_assoc. simpl.
    rewrite Nat.add_0_r. do 2 f_equal.
    apply imap_ext. intros j x _. simpl. f_equal. lia.
Qed.

(** The index holds one entry per segment of [self], keyed by position. *)
Lemma index_of_entries σ self (e : entry Seg) :
  e ∈ index_of σ self <->
  exists j r, segments (tracks σ !!! self) !! j = Some r /\ e = entry_of σ j r.
Proof.
  unfold index_of. rewrite build_index_run. simpl.
  rewrite elem_of_lookup_imap.
  split; intros (j & r & H1 & H2); exists j, r; by split.
Qed.

(** A query gives the entries whose box overlaps the query box. *)
Lemma candidates_spec (idx : Index) (Q : Seg) (e : entry Seg) :
  e ∈ candidates idx Q <->
  e ∈ idx /\ bbox_intersects (bounds e) (seg_getBounds Q) = true.
Proof.
  unfold candidates, Index_intersection.
  rewrite (rtree_order_perm _), !list_elem_of_In. apply filter_In.
Qed.

(** C1. [similarity] returns the mean of the recorded scores together
    with a correspondence list that has one entry per segment of the other
    track, entry [i] being what the loop body gives for the i-th query
    segment: the empty marker or a triple carrying query index [i]. When
    the query segment has no candidate in the index, the score recorded
    for it is 0 and its entry is the empty marker. *)
Theorem similarity_entries σ self track :
  let qs := segments (tracks σ !!! track) in
  let idx := index_of σ self in
  exists final_siml final_diff,
    similarity self track σ
    = (Returned (Py.mean final_siml, final_diff), σ) /\
    similarity_lists self track σ = Returned (final_siml, final_diff) /\
    length final_diff = length qs /\
    length final_siml = length qs /\
    forall i q, qs !! i = Some q ->
      exists s d,
        final_siml !! i = Some s /\ final_diff !! i = Some d /\
        best_match idx i (segs σ !!! q) = Returned (s, d) /\
        (d = NoMatch \/
         exists c, c ∈ candidates idx (segs σ !!! q) /\
                   d = Match (Z.of_nat (id c)) (Z.of_nat i)
                             (diff_of (segs σ !!! q) c)) /\
        (candidates idx (segs σ !!! q) = [] -> s = zero /\ d = NoMatch).
Proof.
  intros qs idx.
  destruct (similarity_lists_run σ self track)
    as (fs & fd & Hrun & Hls & Hld & Hall).
  exists fs, fd. unfold similarity. rewrite Hrun.
  do 4 (split; [done |]).
  intros i q Hq. destruct (Hall i q Hq) as (s & d & Hbm & Hs & Hd).
  exists s, d. do 3 (split; [done |]). split.
  - destruct (best_match_total idx i (segs σ !!! q)) as (s' & d' & Hbm' & H).
    fold idx in Hbm. rewrite Hbm in Hbm'. by injection Hbm' as -> ->.
  - intros Hempty. fold idx in Hbm.
    rewrite (best_match_empty idx i _ Hempty) in Hbm.
    by injection Hbm as <- <-.
Qed.

(** C2. For a query segment with a non-empty candidate set (the entries of
    the segments of [self] whose box overlaps the query's box), [similarity]
    records the candidate of maximum score, the first such in the order the
    index enumerates them, as the triple (position in [self.segments],
    query index, diff), and that maximum as the segment's score: the list
    [similarity] returns holds that triple at the query's position, and the
    score it returns is the mean of the recorded scores. Scores are numbers
    (not NaN). *)
Theorem similarity_best_candidate σ self track (i : nat) (q : sref) :
  let ss := segments (tracks σ !!! self) in
  let idx := index_of σ self in
  let Q := segs σ !!! q in
  let cands := candidates idx Q in
  segments (tracks σ !!! track) !! i = Some q ->
  cands <> [] ->
  Forall (fun c => is_nan (score_of Q c) = false) cands ->
  (forall e, e ∈ cands <->
             (exists j r, ss !! j = Some r /\ e = entry_of σ j r) /\
             bbox_intersects (bounds e) (seg_getBounds Q) = true) /\
  exists final_siml final_diff k c,
    similarity self track σ
    = (Returned (Py.mean final_siml, final_diff), σ) /\
    similarity_lists self track σ = Returned (final_siml, final_diff) /\
    cands !! k = Some c /\
    (forall c', c' ∈ cands -> le (score_of Q c') (score_of Q c) = true) /\
    (forall j c', (j < k)%nat -> cands !! j = Some c' ->
                  lt (score_of Q c') (score_of Q c) = true) /\
    final_siml !! i = Some (score_of Q c) /\
    final_diff !! i
    = Some (Match (Z.of_nat (id c)) (Z.of_nat i) (diff_of Q c)).
Proof.
  intros ss idx Q cands Hq Hne Hnan. split.
  - intros e. unfold cands. rewrite candidates_spec.
    unfold idx. by rewrite index_of_entries.
  - destruct (similarity_lists_run σ self track)
      as (fs & fd & Hrun & _ & _ & Hall).
    destruct (Hall i q Hq) as (s & d & Hbm & Hs & Hd).
    destruct (best_match_best idx i Q Hne Hnan)
      as (k & c & Hk & Hbest & Hle & Hlt).
    fold idx Q in Hbm. rewrite Hbest in Hbm. injection Hbm as <- <-.
    exists fs, fd, k, c.
    split; [unfold similarity; by rewrite Hrun |]. by repeat split.
Qed.

(** C3 (as amended). When the other track has no segment, [similarity]
    returns the mean of an empty list, which is NaN, together with an
    empty correspondence list. *)
Theorem similarity_empty_query σ self track :
  segments (tracks σ !!! track) = [] ->
  similarity self track σ = (Returned (nan, []), σ).
Proof.
  intros Hempty. unfold similarity, similarity_lists. by rewrite Hempty.
Qed.

End WithSegment.
End TrackFacts.

(** ** The model at work on the concrete segments *)
Module Runs.
Import PyFloat Heap Collab TrackPy TrackFacts Fixture.

(** C2: track 2 lists the same segment object twice, so the one query
    segment of track 1 finds two candidates of equal score; the theorem
    applies and names the recorded one in what [similarity] returns. *)
Lemma similarity_best_candidate_witness :
  exists final_siml final_diff k c,
    similarity 2 1 σ0 = (Returned (Py.mean final_siml, final_diff), σ0) /\
    similarity_lists 2 1 σ0 = Returned (final_siml, final_diff) /\
    candidates (index_of σ0 2) seg_b !! k = Some c /\
    final_siml !! 0%nat = Some (score_of seg_b c) /\
    final_diff !! 0%nat = Some (Match (Z.of_nat (id c)) 0 (diff_of seg_b c)).
Proof.
  destruct (similarity_best_candidate σ0 2 1 0 1) as [_ H].
  - reflexivity.
  - vm_compute. intros H. discriminate H.
  - vm_compute. repeat constructor.
  - destruct H as (fs & fd & k & c & H0 & H1 & H2 & _ & _ & H3 & H4).
    exists fs, fd, k, c. repeat split; assumption.
Defined.

(** C3: against track 3, which has no segment, the score is NaN; NaN is
    not the float 0 and does not compare equal to it. *)
Lemma similarity_empty_query_is_nan :
  similarity 0 3 σ0 = (Returned (nan, []), σ0) /\
  nan <> zero /\ SFeqb nan zero = false.
Proof. repeat split. discriminate. Qed.

Lemma similarity_empty_query_witness :
  similarity 0 3 σ0 = (Returned (nan, []), σ0).
Proof. apply (similarity_empty_query σ0 0 3). reflexivity. Defined.

(** C4: track 1 is named ["old"]; [toTrip] called with the name ["trip"]
    returns the track and leaves it named ["old"]. *)
Lemma toTrip_keeps_old_name :
  let run := toTrip 1 "trip" 2%Z "inverse" 0%Z 0%Z 0%Z 0%Z 5%Z "%Y-%m-%d" σ0 in
  Heap.name (tracks σ0 !!! 1) = "old" /\
  run.1 = Returned 1 /\
  Heap.name (tracks run.2 !!! 1) = "old" /\
  Heap.name (tracks run.2 !!! 1) <> "trip".
Proof. vm_compute. repeat split. discriminate. Qed.

(** C7: the bounds of track 0 are the least and greatest coordinates of
    its three boxes. *)
Lemma getBounds_spec_witness :
  exists b,
    getBounds 0 σ0 = (Returned b, σ0) /\
    (segments (tracks σ0 !!! 0) <> [] ->
     is_min_of (bb_minLat b)
               (map bb_minLat (boxes_of σ0 (segments (tracks σ0 !!! 0))))).
Proof.
  destruct (getBounds_spec σ0 0) as (b & Hrun & _ & Hbounds).
  - vm_compute. repeat constructor.
  - exists b. split; [exact Hrun |]. intros Hne. by apply Hbounds.
Defined.

(** C8: three runs on the concrete store. With the triple [(-1, 0, d)]
    no triple names index 2, yet the segment at index 2 of track 0 is the
    one merged into. With track 2, which lists one object twice, and the
    triple [(0, 0, d)], the segment at index 1 changes although only index
    0 is named. With the triple [(5, 0, d)] the call raises [IndexError]
    and returns nothing. *)
Lemma merge_and_fit_unnamed_index_changes :
  let neg := merge_and_fit 0 1 [Match (-1) 0 0%Z] 0%Z σ0 in
  let twice := merge_and_fit 2 1 [Match 0 0 0%Z] 0%Z σ0 in
  let far := merge_and_fit 0 1 [Match 5 0 0%Z] 0%Z σ0 in
  (neg.1 = Returned 0 /\
   segments (tracks σ0 !!! 0) !! 2%nat = Some 2 /\
   segs σ0 !! 2 = Some seg_c /\
   segs neg.2 !! 2 = Some (mkFSeg 20 (box 5 5 6 6) [4; 5; 3]%Z)) /\
  (twice.1 = Returned 2 /\
   segments (tracks σ0 !!! 2) !! 1%nat = Some 0 /\
   segs σ0 !! 0 = Some seg_a /\
   segs twice.2 !! 0 = Some (mkFSeg 10 (box 0 0 2 2) [1; 2; 3]%Z)) /\
  far.1 = Raised IndexError.
Proof. vm_compute. repeat split. Qed.

(** C9: track 0 has three segments; index [-1] is not in [0, 3), and
    [segmentAt(-1)] gives the last segment instead of failing. *)
Lemma segmentAt_negative_index_returns :
  length (segments (tracks σ0 !!! 0)) = 3%nat /\
  segmentAt 0 (-1) σ0 = (Returned 2, σ0) /\
  segmentAt 0 (-1) σ0 <> (Raised IndexError, σ0).
Proof. repeat split. discriminate. Qed.

(** C8: the triples [(0, 0, d)] and [(-1, 0, d)] on track 0 name the
    objects 0 and 2; the call returns track 0 and object 1 keeps its
    state. *)
Lemma merge_and_fit_frame_witness :
  let run := merge_and_fit 0 1 [Match 0 0 0%Z; Match (-1) 0 0%Z] 0%Z σ0 in
  run.1 = Returned 0 /\ segs run.2 !! 1 = segs σ0 !! 1.
Proof.
  cbv zeta.
  destruct (merge_and_fit_frame 0 1 [Match 0 0 0%Z; Match (-1) 0 0%Z] 0%Z σ0)
    as (o & σ' & Hrun & _ & Hframe & Hret & _).
  rewrite Hrun. split.
  - apply Hret.
    assert (forall i, i = 0%Z \/ i = (-1)%Z ->
              readable (segments (tracks σ0 !!! 0))
                       (segments (tracks σ0 !!! 1)) (Match i 0 0%Z)) as Hok.
    { intros i Hi. exists i, 0%Z, 0%Z. split; [reflexivity |].
      destruct Hi as [-> | ->]; split; vm_compute; by eexists. }
    apply Forall_cons. split; [apply Hok; by left |].
    apply Forall_cons. split; [apply Hok; by right | apply Forall_nil_2].
  - apply Hframe. intros i j d Hin.
    apply elem_of_cons in Hin as [[= -> _ _]|Hin]; [by vm_compute |].
    apply elem_of_cons in Hin as [[= -> _ _]|Hin]; [by vm_compute |].
    by apply elem_of_nil in Hin.
Defined.

(** C9: on track 0, with three segments, index 1 and index -3 are read
    and index 3 is refused. *)
Lemma segmentAt_spec_witness :
  segmentAt 0 1 σ0 = (Returned 1, σ0) /\
  segmentAt 0 (-3) σ0 = (Returned 0, σ0) /\
  segmentAt 0 3 σ0 = (Raised IndexError, σ0).
Proof.
  split; [| split].
  - destruct (proj1 (segmentAt_spec σ0 0 1)) as (r & Hr & Hrun);
      [by vm_compute |].
    vm_compute in Hr. injection Hr as <-. exact Hrun.
  - destruct (proj1 (proj2 (segmentAt_spec σ0 0 (-3)))) as (r & Hr & Hrun);
      [by vm_compute |].
    vm_compute in Hr. injection Hr as <-. exact Hrun.
  - apply (proj2 (proj2 (segmentAt_spec σ0 0 3))). right. by vm_compute.
Defined.

(** X1: track 0, called with the empty name, ends up named by
    [generateName]. *)
Lemma toTrip_generated_name_witness :
  exists σ',
    toTrip 0 "" 2%Z "inverse" 0%Z 0%Z 0%Z 0%Z 5%Z "%Y-%m-%d" σ0
    = (Returned 0, σ') /\
    generateName 0 "%Y-%m-%d" σ0
    = (Returned (Heap.name (tracks σ' !!! 0)), σ0).
Proof.
  apply (toTrip_generated_name 0 2%Z "inverse" 0%Z 0%Z 0%Z 0%Z 5%Z
           "%Y-%m-%d" σ0 (mkTrack "" [0; 1; 2] false)).
  reflexivity.
Defined.

(** C10: two lists with the index pair (0, 0) and different payloads,
    under different thresholds. *)
Lemma merge_and_fit_indices_only_witness :
  merge_and_fit 0 1 [Match 0 0 5%Z] 0%Z σ0
  = merge_and_fit 0 1 [Match 0 0 7%Z] 1%Z σ0.
Proof.
  apply (merge_and_fit_indices_only 0 1 [Match 0 0 5%Z] [Match 0 0 7%Z]).
  reflexivity.
Defined.

End Runs.

(** ** Integers as floats *)
Module FloatMoreFacts.
Import PyFloat.

Lemma digits2_pos_lower (p : positive) :
  (2 ^ (Z.pos (digits2_pos p) - 1) <= Z.pos p)%Z.
Proof.
  induction p as [p IH|p IH|]; simpl digits2_pos.
  - rewrite Pos2Z.inj_succ.
    replace (Z.succ (Z.pos (digits2_pos p)) - 1)%Z
      with (Z.succ (Z.pos (digits2_pos p) - 1)) by lia.
    rewrite Z.pow_succ_r by lia. lia.
  - rewrite Pos2Z.inj_succ.
    replace (Z.succ (Z.pos (digits2_pos p)) - 1)%Z
      with (Z.succ (Z.pos (digits2_pos p) - 1)) by lia.
    rewrite Z.pow_succ_r by lia. lia.
  - reflexivity.
Qed.

Lemma digits2_pos_small (p : positive) :
  (Z.pos p < 2 ^ 53)%Z -> (Z.pos (digits2_pos p) <= 53)%Z.
Proof.
  intros Hp. destruct (Z.le_gt_cases (Z.pos (digits2_pos p)) 53) as [H|H];
    [exact H |].
  pose proof (digits2_pos_lower p) as Hlow.
  assert (2 ^ 53 <= 2 ^ (Z.pos (digits2_pos p) - 1))%Z
    by (apply Z.pow_le_mono_r; lia).
  lia.
Qed.

Lemma digits2_pos_iter (p k : positive) :
  digits2_pos (Pos.iter xO p k) = (digits2_pos p + k)%positive.
Proof.
  induction k as [|k IH] using Pos.peano_ind.
  - simpl. by rewrite Pos.add_1_r.
  - rewrite Pos.iter_succ. simpl. rewrite IH. by rewrite Pos.add_succ_r.
Qed.

(** A mantissa of full width with an exponent in range goes through the
    rounding unchanged. *)
Lemma binary_round_aux_exact (m : positive) (e : Z) :
  Z.pos (digits2_pos m) = 53%Z -> (-1074 <= e <= 971)%Z ->
  binary_round_aux prec emax false (Z.pos m) e loc_Exact
  = S754_finite false m e.
Proof.
  intros Hd He.
  assert (shr_fexp prec emax (Z.pos m) e loc_Exact
          = (Build_shr_record (Z.pos m) false false, e)) as Hshr.
  { unfold shr_fexp, fexp, emin, prec, emax. simpl Zdigits2. rewrite Hd.
    replace (Z.max (53 + e - 53) (3 - 1024 - 53) - e)%Z with 0%Z by lia.
    reflexivity. }
  unfold binary_round_aux. rewrite Hshr. simpl. rewrite Hshr. simpl.
  destruct (Z.leb_spec e (emax - prec)) as [_|Hgt]; [reflexivity |].
  unfold emax, prec in Hgt. lia.
Qed.

(** The float of a positive integer below [2 ^ 53] is a positive finite
    number. *)
Lemma of_Z_small_finite (z : Z) :
  (0 < z < 2 ^ 53)%Z -> exists m e, of_Z z = S754_finite false m e.
Proof.
  intros [Hpos Hlt]. destruct z as [|p|p]; [lia | | lia].
  pose proof (digits2_pos_small p Hlt) as Hd.
  unfold of_Z, binary_normalize, binary_round, shl_align, fexp, emin,
    prec, emax.
  replace (Z.max (Z.pos (digits2_pos p) + 0 - 53) (3 - 1024 - 53))
    with (Z.pos (digits2_pos p) - 53)%Z by lia.
  destruct (Z.pos (digits2_pos p) - 53 - 0)%Z as [|k|k] eqn:Hk; [| lia |].
  - eexists _, _. apply binary_round_aux_exact; lia.
  - eexists _, _. apply binary_round_aux_exact; [| lia].
    rewrite digits2_pos_iter. lia.
Qed.

Lemma fold_add_zeros (n : nat) :
  fold_left add (replicate n zero) zero = zero.
Proof. induction n as [|n IH]; [reflexivity | exact IH]. Qed.

(** [numpy.mean] of a non-empty list of zeros is zero. *)
Lemma mean_zeros (n : nat) :
  (0 < n)%nat -> (Z.of_nat n < 2 ^ 53)%Z ->
  Py.mean (replicate n zero) = zero.
Proof.
  intros Hn Hlt. unfold Py.mean.
  rewrite fold_add_zeros, length_replicate.
  destruct (of_Z_small_finite (Z.of_nat n)) as (m & e & ->); [lia |].
  reflexivity.
Qed.

End FloatMoreFacts.

(** ** The rest of the [Track] class *)
Module MoreFacts.
Import PyFloat PyFloatFacts PyFacts Heap Collab CollabMore TrackPy TrackMore.
Import TrackFacts FloatMoreFacts.
Local Open Scope py_scope.

Section WithSegment.
Context {Seg Points Diff Strategy Num Point Clf Query Key JSeg GSeg : Type}.
Context `{!SegmentAPI Seg Points Diff Strategy Num} `{!RtreeAPI Seg}.
Context `{!SegmentLookupAPI Seg Point}.
Context `{!SegmentInferAPI Seg Clf Query Key Num}.
Context `{!SegmentFormatAPI Seg JSeg GSeg Num}.

Implicit Types (σ : Heap.store Seg) (self track : tref) (r : sref).

(** *** [getStartTime] *)

Lemma fold_start_step σ (ss : list sref) (l : Z) :
  exists m,
    fold_left (start_step σ) ss (Some l) = Some m /\
    (m <= l)%Z /\
    (forall x, x ∈ map (start_time_of σ) ss -> (m <= x)%Z) /\
    (m = l \/ m ∈ map (start_time_of σ) ss).
Proof.
  revert l. induction ss as [|r ss IH]; intros l; simpl.
  - exists l. split; [reflexivity |]. split; [lia |].
    split; [| by left]. intros x Hx. by apply elem_of_nil in Hx.
  - destruct (Z.ltb_spec (start_time_of σ r) l) as [Hlt|Hge].
    + destruct (IH (start_time_of σ r)) as (m & Hm & Hle & Hall & Hin).
      exists m. split; [exact Hm |]. split; [lia |]. split.
      * intros x Hx. apply elem_of_cons in Hx as [->|Hx]; [lia | by apply Hall].
      * right. apply elem_of_cons. destruct Hin as [->|Hin]; [by left | by right].
    + destruct (IH l) as (m & Hm & Hle & Hall & Hin).
      exists m. split; [exact Hm |]. split; [lia |]. split.
      * intros x Hx. apply elem_of_cons in Hx as [->|Hx]; [lia | by apply Hall].
      * destruct Hin as [->|Hin]; [by left |]. right. apply elem_of_cons. by right.
Qed.

(** X3. [getStartTime] gives [None] for a track without segments and
    otherwise the least of the segments' start times; it changes
    nothing. *)
Theorem getStartTime_spec σ self :
  let ss := segments (tracks σ !!! self) in
  (ss = [] -> getStartTime self σ = (Returned None, σ)) /\
  (ss <> [] ->
   exists m,
     getStartTime self σ = (Returned (Some m), σ) /\
     m ∈ map (start_time_of σ) ss /\
     forall x, x ∈ map (start_time_of σ) ss -> (m <= x)%Z).
Proof.
  intros ss. unfold getStartTime, bind, get_track. fold ss. split.
  - by intros ->.
  - intros Hne. destruct ss as [|r rest]; [done |]. simpl.
    destruct (fold_start_step σ rest (start_time_of σ r))
      as (m & Hm & Hle & Hall & Hin).
    exists m. rewrite Hm. split; [reflexivity |]. split.
    + apply elem_of_cons. destruct Hin as [->|Hin]; [by left | by right].
    + intros x Hx. apply elem_of_cons in Hx as [->|Hx]; [lia | by apply Hall].
Qed.

(** X4. Right after construction from a non-empty list, the track's start
    time is the start time of its first segment, [segmentAt(0)]. *)
Theorem Track_init_getStartTime σ (name : string) (ss : list sref) :
  ss <> [] ->
  exists t σ' r,
    Track_init name ss σ = (Returned t, σ') /\
    segmentAt t 0 σ' = (Returned r, σ') /\
    getStartTime t σ' = (Returned (Some (start_time_of σ' r)), σ').
Proof.
  intros Hne.
  destruct (Track_init_sorted σ name ss)
    as (t & σ' & tr & Hrun & _ & Hlook & _ & _ & Hperm & Hsorted & _).
  assert (segs σ' = segs σ) as Hsegs.
  { unfold Track_init, new_track in Hrun. by injection Hrun as _ <-. }
  assert (start_time_of σ' = start_time_of σ) as Hst.
  { unfold start_time_of. by rewrite Hsegs. }
  pose proof (lookup_total_correct _ _ _ Hlook) as Htot.
  destruct (segments tr) as [|r rest] eqn:Hsegments.
  { apply Permutation_nil_l in Hperm. by subst. }
  exists t, σ', r. split; [exact Hrun |]. split.
  { unfold segmentAt, bind, get_track. by rewrite Htot, Hsegments. }
  destruct (getStartTime_spec σ' t) as [_ Hmin].
  rewrite Htot, Hsegments in Hmin.
  destruct (Hmin ltac:(done)) as (m & Hget & Hin & Hall).
  rewrite Hget. do 3 f_equal.
  apply StronglySorted_inv in Hsorted as [_ Hhd].
  assert (start_time_of σ' r <= m)%Z.
  { rewrite Hst in *. simpl in Hin.
    apply elem_of_cons in Hin as [->|Hin]; [lia |].
    apply list_elem_of_fmap in Hin as (y & -> & Hy).
    rewrite Forall_forall in Hhd. by apply Hhd. }
  assert (m <= start_time_of σ' r)%Z.
  { apply Hall. simpl. apply elem_of_cons. by left. }
  lia.
Qed.


(** *** [getPointIndex] and [hasPoint] *)

Lemma getPointIndex_loop_spec σ (point : Point) (ss : list sref) (i : nat) :
  let look r := seg_getPointIndex (segs σ !!! r) point in
  (exists k r,
      ss !! k = Some r /\ look r <> (-1)%Z /\
      (forall j r', (j < k)%nat -> ss !! j = Some r' -> look r' = (-1)%Z) /\
      getPointIndex_loop σ point i ss = (Z.of_nat (i + k), look r)) \/
  ((forall r, r ∈ ss -> look r = (-1)%Z) /\
   getPointIndex_loop σ point i ss = ((-1)%Z, (-1)%Z)).
Proof.
  intros look. revert i. induction ss as [|r ss IH]; intros i; simpl.
  - right. split; [| reflexivity]. intros r Hr. by apply elem_of_nil in Hr.
  - fold (look r). destruct (Z.eqb_spec (look r) (-1)) as [Heq|Hne]; simpl.
    + destruct (IH (S i)) as [(k & r' & Hk & Hr' & Hbefore & Hrun)|[Hall Hrun]].
      * left. exists (S k), r'. split; [exact Hk |]. split; [exact Hr' |].
        split.
        -- intros [|j] r'' Hj Hl; simpl in Hl; [by injection Hl as <- |].
           apply (Hbefore j); [lia | exact Hl].
        -- rewrite Hrun. do 2 f_equal. lia.
      * right. split; [| exact Hrun].
        intros r' Hr'. apply elem_of_cons in Hr' as [->|Hr']; [exact Heq |].
        by apply Hall.
    + left. exists 0%nat, r. split; [reflexivity |]. split; [exact Hne |].
      split; [intros j r' Hj; lia |]. by rewrite Nat.add_0_r.
Qed.

(** X5. [getPointIndex] scans the segments in order: it gives
    [(i, idx)] for the first segment [i] whose own lookup gives an [idx]
    other than [-1], and [(-1, -1)] when every segment's lookup gives
    [-1]. It changes nothing. *)
Theorem getPointIndex_spec σ self (point : Point) :
  let ss := segments (tracks σ !!! self) in
  let look r := seg_getPointIndex (segs σ !!! r) point in
  (forall k r,
      ss !! k = Some r -> look r <> (-1)%Z ->
      (forall j r', (j < k)%nat -> ss !! j = Some r' -> look r' = (-1)%Z) ->
      getPointIndex self point σ = (Returned (Z.of_nat k, look r), σ)) /\
  ((forall r, r ∈ ss -> look r = (-1)%Z) ->
   getPointIndex self point σ = (Returned ((-1)%Z, (-1)%Z), σ)).
Proof.
  intros ss look. subst look. cbv beta.
  unfold getPointIndex, bind, get_track. fold ss.
  destruct (getPointIndex_loop_spec σ point ss 0)
    as [(k & r & Hk & Hr & Hbefore & Hrun)|[Hall Hrun]].
  - split.
    + intros k' r' Hk' Hr' Hbefore'. rewrite Hrun.
      destruct (Nat.lt_trichotomy k k') as [Hlt|[->|Hgt]].
      * by specialize (Hbefore' k r Hlt Hk).
      * rewrite Hk in Hk'. by injection Hk' as ->.
      * by specialize (Hbefore k' r' Hgt Hk').
    + intros Hall. exfalso. apply Hr, Hall. by eapply list_elem_of_lookup_2.
  - split.
    + intros k r Hk Hr _. exfalso. apply Hr, Hall.
      by eapply list_elem_of_lookup_2.
    + intros _. by rewrite Hrun.
Qed.

(** X6. [hasPoint] is true exactly when some segment of the track reports
    the point, that is, when its lookup gives something other than
    [-1]. *)
Theorem hasPoint_spec σ self (point : Point) :
  exists b,
    hasPoint self point σ = (Returned b, σ) /\
    (b = true <->
     exists r, r ∈ segments (tracks σ !!! self) /\
               seg_getPointIndex (segs σ !!! r) point <> (-1)%Z).
Proof.
  unfold hasPoint, getPointIndex, bind, get_track, ret.
  eexists. split; [reflexivity |].
  destruct (getPointIndex_loop_spec σ point (segments (tracks σ !!! self)) 0)
    as [(k & r & Hk & Hr & _ & Hrun)|[Hall Hrun]]; rewrite Hrun; simpl.
  - split.
    + intros _. exists r. split; [by eapply list_elem_of_lookup_2 | exact Hr].
    + intros _. apply negb_true_iff, Z.eqb_neq. lia.
  - split; [discriminate |].
    intros (r & Hin & Hr). by specialize (Hall r Hin).
Qed.

(** *** Stores: updates in place and new objects *)

Lemma apply_all_cons (f : Seg -> Seg) (x : sref) (rs : list sref)
    (m : gmap sref Seg) :
  apply_all f (x :: rs) m = apply_all f rs (alter f x m).
Proof. reflexivity. Qed.

Lemma apply_all_notin (f : Seg -> Seg) (rs : list sref)
    (m : gmap sref Seg) r :
  r ∉ rs -> apply_all f rs m !! r = m !! r.
Proof.
  revert m. induction rs as [|x rs IH]; intros m Hr; [reflexivity |].
  apply not_elem_of_cons in Hr as [Hne Hr].
  rewrite apply_all_cons, IH by exact Hr.
  by apply lookup_alter_ne.
Qed.

Lemma apply_all_nodup (f : Seg -> Seg) (rs : list sref)
    (m : gmap sref Seg) r :
  NoDup rs -> r ∈ rs -> apply_all f rs m !! r = f <$> m !! r.
Proof.
  revert m. induction rs as [|x rs IH]; intros m Hnd Hr.
  - by apply elem_of_nil in Hr.
  - apply NoDup_cons in Hnd as [Hx Hnd]. rewrite apply_all_cons.
    apply elem_of_cons in Hr as [->|Hr].
    + rewrite apply_all_notin by exact Hx. apply lookup_alter_eq.
    + rewrite IH by done.
      rewrite lookup_alter_ne; [reflexivity |]. by intros ->.
Qed.

Lemma apply_all_dom (f : Seg -> Seg) (rs : list sref) (m : gmap sref Seg) :
  dom (apply_all f rs m) = dom m.
Proof.
  revert m. induction rs as [|x rs IH]; intros m; [reflexivity |].
  rewrite apply_all_cons, IH. apply dom_alter_L.
Qed.

Lemma stage_effect_apply_all (f : Seg -> Seg) (ss : list sref) σ
    (log : list event) :
  stage_effect f ss σ (mkStore (tracks σ) (apply_all f ss (segs σ)) log).
Proof.
  split; [reflexivity |]. split; simpl.
  - intros r Hr. by apply apply_all_notin.
  - intros Hnd r Hr. by apply apply_all_nodup.
Qed.

Lemma for_each_update_seg (f : Seg -> Seg) (rs : list sref) σ :
  for_each (update_seg f) rs σ
  = (Returned tt, mkStore (tracks σ) (apply_all f rs (segs σ)) (calls σ)).
Proof.
  revert σ. induction rs as [|r rs IH]; intros σ; simpl.
  - unfold ret. by destruct σ.
  - unfold bind, update_seg at 1. by rewrite IH.
Qed.

(** X7. Each of [removeNoise], [smooth], [simplify], [compute_metrics] and
    [inferTransportationMode] returns the track, changes no track object
    (so the segment list, the name and the flag stay), changes no segment
    object that the track does not list, and, when the track lists no
    object twice, applies the segment-level method once to every listed
    object. *)
Theorem in_place_stages_effect σ self (var noise dist dt : Num)
    (strategy : Strategy) (topology_only removeStops : bool) (clf : Clf) :
  let ss := segments (tracks σ !!! self) in
  exists σ1 σ2 σ3 σ4 σ5,
    removeNoise self var σ = (Returned self, σ1) /\
    stage_effect (seg_removeNoise var) ss σ σ1 /\
    smooth self strategy noise σ = (Returned self, σ2) /\
    stage_effect (seg_smooth strategy noise) ss σ σ2 /\
    simplify self topology_only dist σ = (Returned self, σ3) /\
    stage_effect (seg_simplify topology_only dist) ss σ σ3 /\
    compute_metrics self σ = (Returned self, σ4) /\
    stage_effect seg_compute_metrics ss σ σ4 /\
    inferTransportationMode self clf removeStops dt σ
    = (Returned self, σ5) /\
    stage_effect (seg_inferTransportationMode clf removeStops dt) ss σ σ5.
Proof.
  intros ss. eexists _, _, _, _, _.
  rewrite removeNoise_run, smooth_run, simplify_run, compute_metrics_run.
  unfold inferTransportationMode, bind at 1, get_track. unfold bind.
  rewrite for_each_update_seg. fold ss.
  repeat (split; [first [reflexivity | apply stage_effect_apply_all] |]).
  apply stage_effect_apply_all.
Qed.

Lemma new_segs_run (vs : list Seg) σ :
  exists rs σ',
    new_segs vs σ = (Returned rs, σ') /\
    tracks σ' = tracks σ /\ calls σ' = calls σ /\
    length rs = length vs /\ NoDup rs /\
    (forall r, r ∈ rs -> r ∉ dom (segs σ)) /\
    (forall r, r ∉ rs -> segs σ' !! r = segs σ !! r) /\
    (forall i r, rs !! i = Some r -> segs σ' !! r = vs !! i).
Proof.
  revert σ. induction vs as [|v vs IH]; intros σ; simpl.
  - exists [], σ. do 4 (split; [reflexivity |]).
    split; [constructor |]. split; [| split; [done |]].
    + intros r Hr. by apply elem_of_nil in Hr.
    + intros i r Hi. by rewrite lookup_nil in Hi.
  - unfold bind, new_seg at 1.
    set (r0 := fresh (dom (segs σ))).
    destruct (IH (mkStore (tracks σ) (<[r0 := v]> (segs σ)) (calls σ)))
      as (rs & σ' & Hrun & Ht & Hc & Hlen & Hnd & Hfresh & Hframe & Hnew).
    rewrite Hrun. simpl in *. exists (r0 :: rs), σ'.
    assert (r0 ∉ rs) as Hr0.
    { intros Hin. apply (Hfresh r0 Hin). rewrite dom_insert_L. set_solver. }
    split; [reflexivity |]. split; [exact Ht |]. split; [exact Hc |].
    split; [simpl; by rewrite Hlen |].
    split; [by apply NoDup_cons |].
    split; [| split].
    + intros r Hr. apply elem_of_cons in Hr as [->|Hr].
      * apply is_fresh.
      * specialize (Hfresh r Hr). rewrite dom_insert_L in Hfresh. set_solver.
    + intros r Hr. apply not_elem_of_cons in Hr as [Hne Hr].
      rewrite Hframe by exact Hr. by apply lookup_insert_ne.
    + intros [|i] r Hi; simpl in Hi.
      * injection Hi as <-. rewrite Hframe by exact Hr0.
        simpl. apply lookup_insert_eq.
      * by apply Hnew.
Qed.

(** *** [segment] *)

Lemma append_new_new_segs (s : list Points) (acc : list sref) σ :
  append_new s acc σ =
  match new_segs (map Segment_init s) σ with
  | (Returned news, σ') => (Returned (acc ++ news), σ')
  | (Raised e, σ') => (Raised e, σ')
  end.
Proof.
  revert acc σ. induction s as [|a s IH]; intros acc σ; simpl.
  - unfold ret. by rewrite app_nil_r.
  - unfold bind, new_seg. rewrite IH.
    destruct (new_segs _ _) as [[news|e] σ']; [| reflexivity].
    unfold ret. by rewrite <- app_assoc.
Qed.

Lemma lookup_total_eq (m1 m2 : gmap sref Seg) r :
  m1 !! r = m2 !! r -> m1 !!! r = m2 !!! r.
Proof. intros Heq. by rewrite !lookup_total_alt, Heq. Qed.

Lemma segment_loop_full (eps min_time : Num) (todo : list sref) :
  forall (acc : list sref) σ,
    all_alive todo σ ->
    exists news σ',
      segment_loop eps min_time todo acc σ = (Returned (acc ++ news), σ') /\
      tracks σ' = tracks σ /\
      NoDup news /\
      (forall r, r ∈ news -> r ∉ dom (segs σ)) /\
      dom (segs σ) ⊆ dom (segs σ') /\
      (forall r, r ∉ todo -> r ∉ news -> segs σ' !! r = segs σ !! r) /\
      (NoDup todo ->
       (forall r, r ∈ todo ->
          segs σ' !! r
          = (fun v => (seg_segment eps min_time v).1) <$> segs σ !! r) /\
       map (fun r => segs σ' !! r) news
       = map Some (concat (map (pieces_of eps min_time σ) todo))).
Proof.
  induction todo as [|r todo IH]; intros acc σ Halive; simpl.
  - exists [], σ. rewrite app_nil_r. do 2 (split; [reflexivity |]).
    split; [constructor |]. split; [intros r Hr; by apply elem_of_nil in Hr |].
    split; [done |]. split; [done |]. intros _.
    split; [intros r Hr; by apply elem_of_nil in Hr | reflexivity].
  - unfold bind at 1, get_seg. unfold bind at 1, call_seg at 1.
    unfold bind at 1. rewrite append_new_new_segs.
    set (f := fun v => (seg_segment eps min_time v).1).
    set (σa := mkStore (tracks σ) (alter f r (segs σ))
                       (calls σ ++ [ESegment r])).
    fold (pieces_of eps min_time σ r).
    destruct (new_segs_run (pieces_of eps min_time σ r) σa)
      as (n1 & σb & Hrun1 & Ht1 & _ & Hlen1 & Hnd1 & Hfresh1 & Hframe1
          & Hnew1).
    rewrite Hrun1.
    assert (dom (segs σa) = dom (segs σ)) as Hdoma by apply dom_alter_L.
    assert (forall x, x ∈ n1 -> x ∈ dom (segs σb)) as Hn1dom.
    { intros x Hx. apply list_elem_of_lookup_1 in Hx as [i Hi].
      apply elem_of_dom. rewrite (Hnew1 i x Hi).
      apply lookup_lt_is_Some_2. rewrite <- Hlen1.
      by eapply lookup_lt_Some. }
    assert (dom (segs σ) ⊆ dom (segs σb)) as Hsub.
    { intros x Hx. destruct (decide (x ∈ n1)) as [Hin|Hnin].
      - by apply Hn1dom.
      - apply elem_of_dom. rewrite Hframe1 by exact Hnin.
        apply elem_of_dom. by rewrite Hdoma. }
    destruct (IH (acc ++ n1) σb) as (n2 & σ' & Hrun2 & Ht2 & Hnd2 & Hfresh2
                                     & Hsub2 & Hframe2 & Hst2).
    { intros x Hx. apply Hsub, Halive, elem_of_cons. by right. }
    rewrite Hrun2, <- app_assoc. exists (n1 ++ n2), σ'.
    split; [reflexivity |]. split; [by rewrite Ht2, Ht1 |].
    assert (forall x, x ∈ n1 -> x ∉ n2) as Hdisj.
    { intros x Hx Hx2. by apply (Hfresh2 x Hx2), Hn1dom. }
    split; [apply NoDup_app; by repeat split |].
    split.
    { intros x Hx. apply elem_of_app in Hx as [Hx|Hx].
      - rewrite <- Hdoma. by apply Hfresh1.
      - intros Hd. by apply (Hfresh2 x Hx), Hsub. }
    split; [by etrans |].
    assert (forall x, x ∈ dom (segs σ) -> (x ∉ n1) /\ (x ∉ n2)) as Hold.
    { intros x Hx. split.
      - intros Hin. apply (Hfresh1 x Hin). by rewrite Hdoma.
      - intros Hin. by apply (Hfresh2 x Hin), Hsub. }
    split.
    { intros x Hx Hxn.
      apply not_elem_of_cons in Hx as [Hne Hx].
      apply not_elem_of_app in Hxn as [Hx1 Hx2].
      rewrite Hframe2, Hframe1 by done. simpl. by apply lookup_alter_ne. }
    intros Hnd. apply NoDup_cons in Hnd as [Hr Hnd].
    destruct (Hst2 Hnd) as [Hold2 Hstates2].
    assert (r ∈ dom (segs σ)) as Hrdom
        by (apply Halive, elem_of_cons; by left).
    destruct (Hold r Hrdom) as [Hr1 Hr2].
    split.
    + intros x Hx. apply elem_of_cons in Hx as [->|Hx].
      * rewrite Hframe2, Hframe1 by done. simpl. apply lookup_alter_eq.
      * assert (x ∈ dom (segs σ)) as Hxdom
            by (apply Halive, elem_of_cons; by right).
        destruct (Hold x Hxdom) as [Hx1 _].
        rewrite (Hold2 x Hx), Hframe1 by done. simpl.
        rewrite lookup_alter_ne; [reflexivity |]. by intros ->.
    + simpl. rewrite !map_app. f_equal.
      * apply list_eq. intros i. rewrite !list_lookup_fmap.
        destruct (n1 !! i) as [x|] eqn:Hi; simpl.
        -- assert (x ∈ n1) as Hx by (by eapply list_elem_of_lookup_2).
           rewrite Hframe2.
           ++ rewrite (Hnew1 i x Hi).
              destruct (pieces_of eps min_time σ r !! i) eqn:Hp;
                [reflexivity |].
              apply lookup_ge_None in Hp. apply lookup_lt_Some in Hi. lia.
           ++ intros Hin. apply (Hfresh1 x Hx). rewrite Hdoma.
              apply Halive, elem_of_cons. by right.
           ++ by apply Hdisj.
        -- apply lookup_ge_None in Hi. rewrite Hlen1 in Hi.
           apply lookup_ge_None in Hi. by rewrite Hi.
      * rewrite Hstates2. do 2 f_equal. apply map_ext_in.
        intros x Hx. apply list_elem_of_In in Hx.
        unfold pieces_of. do 3 f_equal. apply lookup_total_eq.
        assert (x ∈ dom (segs σ)) as Hxdom
            by (apply Halive, elem_of_cons; by right).
        destruct (Hold x Hxdom) as [Hx1 _].
        rewrite Hframe1 by done. simpl.
        apply lookup_alter_ne. by intros ->.
Qed.

Lemma segment_full self (eps min_time : Num) σ :
  let ss := segments (tracks σ !!! self) in
  all_alive ss σ ->
  exists new σ',
    segment self eps min_time σ = (Returned self, σ') /\
    tracks σ' = alter (fun t => mkTrack (name t) new (preprocessed t))
                      self (tracks σ) /\
    NoDup new /\
    (forall r, r ∈ new -> r ∉ dom (segs σ)) /\
    dom (segs σ) ⊆ dom (segs σ') /\
    (forall r, r ∉ ss -> r ∉ new -> segs σ' !! r = segs σ !! r) /\
    (NoDup ss ->
     (forall r, r ∈ ss ->
        segs σ' !! r
        = (fun v => (seg_segment eps min_time v).1) <$> segs σ !! r) /\
     map (fun r => segs σ' !! r) new
     = map Some (concat (map (pieces_of eps min_time σ) ss))).
Proof.
  intros ss Halive.
  destruct (segment_loop_full eps min_time ss [] σ Halive)
    as (new & σ1 & Hrun & Ht & Hrest).
  unfold segment, bind at 1, get_track. unfold bind at 1. fold ss.
  rewrite Hrun. unfold bind, set_segments, ret. simpl.
  exists new. eexists. split; [reflexivity |]. simpl.
  split; [by rewrite Ht | exact Hrest].
Qed.

(** X8. [segment] replaces the track's segment list by newly made segment
    objects: none of them existed before, no two of them are the same
    object, the track keeps its name and flag, no other track changes, and
    no segment object outside the old list changes. When the old list
    names no object twice, the new objects are, in order, the pieces of
    the first old segment, then those of the second, and so on. *)
Theorem segment_replaces_segments σ self (eps min_time : Num) (t : Track) :
  tracks σ !! self = Some t ->
  all_alive (segments t) σ ->
  exists new σ',
    segment self eps min_time σ = (Returned self, σ') /\
    tracks σ' !! self = Some (mkTrack (name t) new (preprocessed t)) /\
    (forall t', t' <> self -> tracks σ' !! t' = tracks σ !! t') /\
    NoDup new /\
    (forall r, r ∈ new -> r ∉ dom (segs σ)) /\
    (forall r, r ∉ segments t -> r ∉ new -> segs σ' !! r = segs σ !! r) /\
    (NoDup (segments t) ->
     map (fun r => segs σ' !! r) new
     = map Some (concat (map (pieces_of eps min_time σ) (segments t)))).
Proof.
  intros Ht Halive.
  pose proof (lookup_total_correct _ _ _ Ht) as Htot.
  destruct (segment_full self eps min_time σ)
    as (new & σ' & Hrun & Htr & Hnd & Hfresh & _ & Hframe & Hst).
  { by rewrite Htot. }
  rewrite Htot in Hframe, Hst.
  exists new, σ'. split; [exact Hrun |].
  split; [by rewrite Htr, lookup_alter_eq, Ht |].
  split; [intros t' Hne; rewrite Htr; by apply lookup_alter_ne |].
  do 3 (split; [done |]). intros Hnodup. by apply Hst.
Qed.

(** *** [toTrip] and the objects it touches *)

Lemma toTrip_full self (name : string) (noise_var : Num)
    (smooth_strategy : Strategy)
    (smooth_noise seg_eps seg_min_time dist max_time : Num)
    (file_format : string) σ (t : Track) :
  tracks σ !! self = Some t ->
  all_alive (segments t) σ ->
  exists (nm : string) (new : list sref) σ',
    toTrip self name noise_var smooth_strategy smooth_noise seg_eps
           seg_min_time dist max_time file_format σ = (Returned self, σ') /\
    tracks σ' !! self = Some (mkTrack nm new (preprocessed t)) /\
    (forall t', t' <> self -> tracks σ' !! t' = tracks σ !! t') /\
    NoDup new /\
    (forall r, r ∈ new -> r ∉ dom (segs σ)) /\
    (forall r, r ∉ segments t -> r ∉ new -> segs σ' !! r = segs σ !! r).
Proof.
  intros Ht Halive.
  pose proof (lookup_total_correct _ _ _ Ht) as Htot.
  assert (exists nm,
             (if negb (String.length name =? 0)%nat
              then (t <- get_track self;; ret (Heap.name t))
              else generateName self file_format) σ = (Returned nm, σ))
    as (nm & Hname).
  { destruct (negb (String.length name =? 0)%nat).
    - by eexists.
    - apply generateName_run. }
  unfold toTrip. unfold bind at 1. rewrite Hname.
  unfold bind at 1. rewrite smooth_run.
  unfold bind at 1. rewrite compute_metrics_run. cbn [tracks calls segs].
  rewrite Htot.
  set (m2 := apply_all seg_compute_metrics (segments t)
               (apply_all (seg_smooth smooth_strategy smooth_noise)
                          (segments t) (segs σ))).
  assert (dom m2 = dom (segs σ)) as Hdom2
      by (unfold m2; by rewrite !apply_all_dom).
  unfold bind at 1.
  match goal with |- context [segment self seg_eps seg_min_time ?st] =>
    destruct (segment_full self seg_eps seg_min_time st)
      as (new & σ3 & Hrun & Htr & Hnd & Hfresh & _ & Hframe & _)
  end.
  { cbn [tracks segs]. rewrite Htot. intros r Hr. cbn [segs].
    rewrite Hdom2. by apply Halive. }
  rewrite Hrun. cbn [tracks segs] in Htr, Hfresh, Hframe.
  rewrite Htot in Hframe. rewrite Hdom2 in Hfresh.
  assert (tracks σ3 !!! self = mkTrack (Heap.name t) new (preprocessed t))
    as Htot3.
  { apply lookup_total_correct. by rewrite Htr, lookup_alter_eq, Ht. }
  unfold bind at 1. rewrite compute_metrics_run.
  unfold bind at 1. rewrite simplify_run. cbn [tracks calls segs].
  unfold bind at 1. rewrite compute_metrics_run. cbn [tracks calls segs].
  unfold bind, set_name, ret. cbn [tracks calls segs].
  rewrite Htot3. cbn [segments].
  exists nm, new. eexists. split; [reflexivity |]. cbn [tracks segs].
  split; [by rewrite lookup_alter_eq, Htr, lookup_alter_eq, Ht |].
  split; [intros t' Hne; by rewrite lookup_alter_ne, Htr, lookup_alter_ne |].
  do 2 (split; [done |]).
  intros r Hr Hrn. rewrite !apply_all_notin by exact Hrn.
  rewrite Hframe by done. unfold m2. by rewrite !apply_all_notin.
Qed.

(** X9. [toTrip] leaves every other track object as it is and changes no
    segment object outside the track's own list; the segments the track
    lists afterwards are all objects made during the call, each listed
    once, and the [preprocessed] flag is kept. *)
Theorem toTrip_frame self (name : string) (noise_var : Num)
    (smooth_strategy : Strategy)
    (smooth_noise seg_eps seg_min_time dist max_time : Num)
    (file_format : string) σ (t : Track) :
  tracks σ !! self = Some t ->
  all_alive (segments t) σ ->
  exists (t' : Track) σ',
    toTrip self name noise_var smooth_strategy smooth_noise seg_eps
           seg_min_time dist max_time file_format σ = (Returned self, σ') /\
    tracks σ' !! self = Some t' /\
    preprocessed t' = preprocessed t /\
    NoDup (segments t') /\
    (forall r, r ∈ segments t' -> r ∉ dom (segs σ)) /\
    (forall other, other <> self -> tracks σ' !! other = tracks σ !! other) /\
    (forall r, r ∈ dom (segs σ) -> r ∉ segments t ->
               segs σ' !! r = segs σ !! r).
Proof.
  intros Ht Halive.
  destruct (toTrip_full self name noise_var smooth_strategy smooth_noise
              seg_eps seg_min_time dist max_time file_format σ t Ht Halive)
    as (nm & new & σ' & Hrun & Hself & Hother & Hnd & Hfresh & Hframe).
  exists (mkTrack nm new (preprocessed t)), σ'.
  do 5 (split; [done |]). split; [exact Hother |].
  intros r Hr Hnot. apply Hframe; [exact Hnot |].
  intros Hin. by apply (Hfresh r Hin).
Qed.

(** The end state of [toTrip] on a track that lists no object twice: the
    old segment objects have been through [smooth], [compute_metrics] and
    [segment]; the track lists the objects segmentation made, in piece
    order, and these have been through [compute_metrics], [simplify] and
    [compute_metrics]. *)
Lemma toTrip_state self (name : string) (noise_var : Num)
    (smooth_strategy : Strategy)
    (smooth_noise seg_eps seg_min_time dist max_time : Num)
    (file_format : string) σ (t : Track) :
  let pre v := seg_compute_metrics (seg_smooth smooth_strategy smooth_noise v) in
  let post v :=
    seg_compute_metrics (seg_simplify false dist (seg_compute_metrics v)) in
  tracks σ !! self = Some t ->
  all_alive (segments t) σ ->
  NoDup (segments t) ->
  exists (nm : string) (new : list sref) σ',
    toTrip self name noise_var smooth_strategy smooth_noise seg_eps
           seg_min_time dist max_time file_format σ = (Returned self, σ') /\
    tracks σ' !! self = Some (mkTrack nm new (preprocessed t)) /\
    NoDup new /\
    (forall r, r ∈ new -> r ∉ dom (segs σ)) /\
    (forall r, r ∈ segments t ->
       segs σ' !! r
       = (fun v => (seg_segment seg_eps seg_min_time (pre v)).1)
           <$> segs σ !! r) /\
    map (fun r => segs σ' !! r) new
    = map Some
        (concat
           (map (fun r =>
                   map (fun p => post (Segment_init p))
                       (seg_segment seg_eps seg_min_time
                                    (pre (segs σ !!! r))).2)
                (segments t))) /\
    (forall r, r ∉ segments t -> r ∉ new -> segs σ' !! r = segs σ !! r).
Proof.
  intros pre post Ht Halive Hnodup.
  pose proof (lookup_total_correct _ _ _ Ht) as Htot.
  assert (exists nm,
             (if negb (String.length name =? 0)%nat
              then (t <- get_track self;; ret (Heap.name t))
              else generateName self file_format) σ = (Returned nm, σ))
    as (nm & Hname).
  { destruct (negb (String.length name =? 0)%nat).
    - by eexists.
    - apply generateName_run. }
  unfold toTrip. unfold bind at 1. rewrite Hname.
  unfold bind at 1. rewrite smooth_run.
  unfold bind at 1. rewrite compute_metrics_run. cbn [tracks calls segs].
  rewrite Htot.
  set (m2 := apply_all seg_compute_metrics (segments t)
               (apply_all (seg_smooth smooth_strategy smooth_noise)
                          (segments t) (segs σ))).
  assert (dom m2 = dom (segs σ)) as Hdom2
      by (unfold m2; by rewrite !apply_all_dom).
  assert (forall r, r ∈ segments t -> m2 !! r = pre <$> segs σ !! r) as Hm2.
  { intros r Hr. unfold m2. rewrite !apply_all_nodup by done.
    by destruct (segs σ !! r). }
  unfold bind at 1.
  match goal with |- context [segment self seg_eps seg_min_time ?st] =>
    destruct (segment_full self seg_eps seg_min_time st)
      as (new & σ3 & Hrun & Htr & Hnd & Hfresh & _ & Hframe & Hst)
  end.
  { cbn [tracks segs]. rewrite Htot. intros r Hr. cbn [segs].
    rewrite Hdom2. by apply Halive. }
  rewrite Hrun. cbn [tracks segs] in Htr, Hfresh, Hframe, Hst.
  rewrite Htot in Hframe, Hst. rewrite Hdom2 in Hfresh.
  destruct (Hst Hnodup) as [Hold Hnew].
  assert (tracks σ3 !!! self = mkTrack (Heap.name t) new (preprocessed t))
    as Htot3.
  { apply lookup_total_correct. by rewrite Htr, lookup_alter_eq, Ht. }
  unfold bind at 1. rewrite compute_metrics_run.
  unfold bind at 1. rewrite simplify_run. cbn [tracks calls segs].
  unfold bind at 1. rewrite compute_metrics_run. cbn [tracks calls segs].
  unfold bind, set_name, ret. cbn [tracks calls segs].
  rewrite Htot3. cbn [segments].
  exists nm, new. eexists. split; [reflexivity |]. cbn [tracks segs].
  split; [by rewrite lookup_alter_eq, Htr, lookup_alter_eq, Ht |].
  do 2 (split; [done |]).
  split; [| split].
  - intros r Hr.
    assert (r ∉ new) as Hrn by (intros Hin; by apply (Hfresh r Hin), Halive).
    rewrite !apply_all_notin by exact Hrn.
    rewrite Hold by exact Hr. rewrite Hm2 by exact Hr.
    by destruct (segs σ !! r).
  - transitivity (map (fmap post) (map (fun r => segs σ3 !! r) new)).
    + rewrite map_map. apply map_ext_in. intros r Hr.
      apply list_elem_of_In in Hr.
      rewrite !apply_all_nodup by done. by destruct (segs σ3 !! r).
    + rewrite Hnew.
      match goal with |- map _ (map Some ?L) = _ =>
        transitivity (map Some (map post L)); [by rewrite !map_map |]
      end.
      f_equal. rewrite concat_map, map_map. f_equal.
      apply map_ext_in. intros r Hr.
      apply list_elem_of_In in Hr.
      unfold pieces_of. cbn [segs]. rewrite map_map.
      assert (m2 !!! r = pre (segs σ !!! r)) as ->; [| reflexivity].
      rewrite !lookup_total_alt, (Hm2 r Hr).
      pose proof (Halive r Hr) as Hd. apply elem_of_dom in Hd as [v Hv].
      by rewrite Hv.
  - intros r Hr Hrn. rewrite !apply_all_notin by exact Hrn.
    rewrite Hframe by done. unfold m2. by rewrite !apply_all_notin.
Qed.

(** C5. [toTrip] returns the track it was called on, and the calls it
    makes on segments are, in this order: [smooth] on every segment,
    [compute_metrics] on every segment, [segment] on every segment, and
    then, on every segment of the list that segmentation installed,
    [compute_metrics], [simplify] and [compute_metrics] again. No call of
    [removeNoise] is among them. [removeNoise] on its own applies the
    segment-level noise removal to every segment and returns the track.

    The stages act on the track's segments: for a track that lists live
    segment objects, none twice, every old object ends in the state that
    [smooth], [compute_metrics] and [segment], with the arguments given,
    leave it in; the track then lists new objects only, one per piece of
    the segmentation in the order of the old segments, each in the state
    that [compute_metrics], [simplify] and [compute_metrics] give to the
    segment made from its piece; no other segment object changes. *)
Theorem toTrip_stage_sequence self (name : string) (noise_var : Num)
    (smooth_strategy : Strategy)
    (smooth_noise seg_eps seg_min_time dist max_time : Num)
    (file_format : string) σ :
  exists σ' σn,
    let s0 := segments (tracks σ !!! self) in
    let s1 := segments (tracks σ' !!! self) in
    let pre v :=
      seg_compute_metrics (seg_smooth smooth_strategy smooth_noise v) in
    let post v :=
      seg_compute_metrics (seg_simplify false dist (seg_compute_metrics v)) in
    toTrip self name noise_var smooth_strategy smooth_noise seg_eps
           seg_min_time dist max_time file_format σ = (Returned self, σ') /\
    calls σ' =
      calls σ ++ map ESmooth s0 ++ map EComputeMetrics s0 ++ map ESegment s0
              ++ map EComputeMetrics s1 ++ map ESimplify s1
              ++ map EComputeMetrics s1 /\
    (StRemoveNoise ∉ map stage_of (drop (length (calls σ)) (calls σ'))) /\
    removeNoise self noise_var σ = (Returned self, σn) /\
    calls σn = calls σ ++ map ERemoveNoise s0 /\
    segs σn = apply_all (seg_removeNoise noise_var) s0 (segs σ) /\
    tracks σn = tracks σ /\
    (is_Some (tracks σ !! self) -> all_alive s0 σ -> NoDup s0 ->
     NoDup s1 /\
     (forall r, r ∈ s1 -> r ∉ dom (segs σ)) /\
     (forall r, r ∈ s0 ->
        segs σ' !! r
        = (fun v => (seg_segment seg_eps seg_min_time (pre v)).1)
            <$> segs σ !! r) /\
     map (fun r => segs σ' !! r) s1
     = map Some
         (concat
            (map (fun r =>
                    map (fun p => post (Segment_init p))
                        (seg_segment seg_eps seg_min_time
                                     (pre (segs σ !!! r))).2)
                 s0)) /\
     (forall r, r ∉ s0 -> r ∉ s1 -> segs σ' !! r = segs σ !! r)).
Proof.
  destruct (toTrip_run self name noise_var smooth_strategy smooth_noise
              seg_eps seg_min_time dist max_time file_format σ)
    as (nm & out & σ' & _ & Hrun & _ & Hcalls).
  exists σ'. eexists. cbv zeta.
  split; [exact Hrun |]. split; [exact Hcalls |].
  split.
  { rewrite Hcalls, drop_app_length, !map_app, !map_map. simpl.
    rewrite !elem_of_app, !list_elem_of_fmap. intros H.
    repeat destruct H as [H|H]; by destruct H as (? & ? & ?). }
  rewrite removeNoise_run. do 4 (split; [reflexivity |]).
  intros [t Ht] Halive Hnodup.
  pose proof (lookup_total_correct _ _ _ Ht) as Htot.
  rewrite Htot in Halive, Hnodup. rewrite Htot.
  destruct (toTrip_state self name noise_var smooth_strategy smooth_noise
              seg_eps seg_min_time dist max_time file_format σ t Ht Halive
              Hnodup)
    as (nm' & new & σ2 & Hrun2 & Hself & Hnd & Hfresh & Hold & Hnew & Hframe).
  rewrite Hrun in Hrun2. injection Hrun2 as <-.
  rewrite (lookup_total_correct _ _ _ Hself). cbn [segments].
  by repeat split.
Qed.

(** *** [copy] *)

Lemma copy_loop_run σ0 (todo : list sref) :
  forall (memo : gmap sref sref) σc,
    copy_inv σ0 memo σc ->
    all_alive todo σ0 ->
    exists rs memo' σ',
      copy_loop todo memo σc = (Returned rs, σ') /\
      copy_inv σ0 memo' σ' /\
      memo ⊆ memo' /\
      Forall2 (fun r r' => memo' !! r = Some r') todo rs.
Proof.
  induction todo as [|r todo IH]; intros memo σc Hinv Halive; simpl.
  - exists [], memo, σc. split; [reflexivity |]. split; [exact Hinv |].
    split; [reflexivity | constructor].
  - assert (all_alive todo σ0) as Halive'.
    { intros x Hx. apply Halive, elem_of_cons. by right. }
    destruct (memo !! r) as [r'|] eqn:Hmemo.
    + destruct (IH memo σc Hinv Halive')
        as (rs & memo' & σ' & Hrun & Hinv' & Hsub & Hall).
      exists (r' :: rs), memo', σ'. unfold bind. rewrite Hrun.
      split; [reflexivity |]. split; [exact Hinv' |]. split; [exact Hsub |].
      constructor; [| exact Hall]. by eapply lookup_weaken.
    + destruct Hinv as (Ht & Hc & Hframe & Hmap & Hinj).
      unfold bind at 1, get_seg. unfold bind at 1, new_seg.
      set (r' := fresh (dom (segs σc))).
      set (σn := mkStore (tracks σc) (<[r' := segs σc !!! r]> (segs σc))
                         (calls σc)).
      assert (r' ∉ dom (segs σc)) as Hfresh by apply is_fresh.
      assert (forall x, is_Some (segs σc !! x) -> x <> r') as Hne.
      { intros x Hx ->. by apply Hfresh, elem_of_dom. }
      assert (r ∈ dom (segs σ0)) as Hr
          by (apply Halive, elem_of_cons; by left).
      assert (segs σc !!! r = segs σ0 !!! r) as Hstate.
      { apply lookup_total_eq. by apply Hframe. }
      assert (copy_inv σ0 (<[r := r']> memo) σn) as Hinvn.
      { split; [exact Ht |]. split; [exact Hc |]. split; [| split].
        - intros x Hx. simpl. rewrite lookup_insert_ne; [by apply Hframe |].
          intros <-. apply (Hne r'); [| reflexivity].
          rewrite (Hframe _ Hx). by apply elem_of_dom.
        - intros k x Hk. simpl.
          destruct (decide (k = r)) as [->|Hkr].
          + rewrite lookup_insert_eq in Hk. injection Hk as <-.
            split; [| by rewrite lookup_insert_eq, Hstate].
            intros Hin. apply (Hne r'); [| reflexivity].
            rewrite (Hframe _ Hin). by apply elem_of_dom.
          + rewrite lookup_insert_ne in Hk by done.
            destruct (Hmap k x Hk) as [Hx1 Hx2]. split; [exact Hx1 |].
            rewrite lookup_insert_ne; [exact Hx2 |].
            intros <-. apply (Hne r'); [| reflexivity]. by rewrite Hx2.
        - intros k1 k2 x Hk1 Hk2.
          destruct (decide (k1 = r)) as [->|Hk1r],
                   (decide (k2 = r)) as [->|Hk2r]; [reflexivity | | |].
          + rewrite lookup_insert_eq in Hk1. injection Hk1 as <-.
            rewrite lookup_insert_ne in Hk2 by done.
            destruct (Hmap k2 r' Hk2) as [_ Hx].
            exfalso. apply (Hne r'); [by rewrite Hx | reflexivity].
          + rewrite lookup_insert_eq in Hk2. injection Hk2 as <-.
            rewrite lookup_insert_ne in Hk1 by done.
            destruct (Hmap k1 r' Hk1) as [_ Hx].
            exfalso. apply (Hne r'); [by rewrite Hx | reflexivity].
          + rewrite lookup_insert_ne in Hk1, Hk2 by done.
            by apply (Hinj k1 k2 x). }
      destruct (IH (<[r := r']> memo) σn Hinvn Halive')
        as (rs & memo' & σ' & Hrun & Hinv' & Hsub & Hall).
      exists (r' :: rs), memo', σ'. unfold bind. fold r' σn.
      rewrite Hrun. split; [reflexivity |]. split; [exact Hinv' |]. split.
      * etrans; [| exact Hsub]. by apply insert_subseteq.
      * constructor; [| exact Hall].
        eapply lookup_weaken; [| exact Hsub]. apply lookup_insert_eq.
Qed.

(** X10. [copy] makes a new track object, with the name and flag of the
    original, whose segments are new objects: position by position each
    one is in the state of the original's segment and did not exist
    before, and two positions share an object in the copy exactly when
    they do in the original. The objects that existed before, and the
    log, are unchanged. *)
Theorem copy_spec σ self (t : Track) :
  tracks σ !! self = Some t ->
  all_alive (segments t) σ ->
  exists c rs σ',
    copy self σ = (Returned c, σ') /\
    tracks σ !! c = None /\
    tracks σ' = <[c := mkTrack (name t) rs (preprocessed t)]> (tracks σ) /\
    calls σ' = calls σ /\
    (forall r, r ∈ dom (segs σ) -> segs σ' !! r = segs σ !! r) /\
    Forall2 (fun r r' => (r' ∉ dom (segs σ)) /\ segs σ' !! r' = segs σ !! r)
            (segments t) rs /\
    (forall i j r1 r2 x1 x2,
        segments t !! i = Some r1 -> segments t !! j = Some r2 ->
        rs !! i = Some x1 -> rs !! j = Some x2 ->
        (r1 = r2 <-> x1 = x2)).
Proof.
  intros Ht Halive.
  pose proof (lookup_total_correct _ _ _ Ht) as Htot.
  assert (copy_inv σ ∅ σ) as Hinv0.
  { do 3 (split; [done |]). split; intros *; by rewrite lookup_empty. }
  destruct (copy_loop_run σ (segments t) ∅ σ Hinv0 Halive)
    as (rs & memo & σ1 & Hrun & (Htr & Hc & Hframe & Hmap & Hinj) & _ & Hall).
  unfold copy, bind at 1, get_track. unfold bind. rewrite Htot, Hrun.
  unfold new_track. eexists _, rs, _. split; [reflexivity |]. simpl.
  rewrite Htr. split; [apply not_elem_of_dom, is_fresh |].
  split; [reflexivity |]. split; [exact Hc |]. split; [exact Hframe |].
  split.
  - apply Forall2_same_length_lookup.
    split; [by eapply Forall2_length |].
    intros i r r' Hi Hi'.
    pose proof (Forall2_lookup_lr _ _ _ _ _ _ Hall Hi Hi') as Hm.
    destruct (Hmap r r' Hm) as [Hnew Hstate]. split; [exact Hnew |].
    rewrite Hstate. symmetry. apply lookup_lookup_total.
    apply elem_of_dom, Halive. by eapply list_elem_of_lookup_2.
  - intros i j r1 r2 x1 x2 Hi Hj Hxi Hxj.
    pose proof (Forall2_lookup_lr _ _ _ _ _ _ Hall Hi Hxi) as H1.
    pose proof (Forall2_lookup_lr _ _ _ _ _ _ Hall Hj Hxj) as H2.
    simpl in H1, H2. split.
    + intros ->. rewrite H1 in H2. by injection H2.
    + intros ->. by apply (Hinj r1 r2 x2).
Qed.

(** X11. Turning a copy into a trip leaves the original alone: after
    [copy] and then [toTrip] on the copy, the original track object and
    every segment object that existed before the copy are unchanged. *)
Theorem copy_then_toTrip_keeps_original σ self (t : Track) (name : string)
    (noise_var : Num) (smooth_strategy : Strategy)
    (smooth_noise seg_eps seg_min_time dist max_time : Num)
    (file_format : string) :
  tracks σ !! self = Some t ->
  all_alive (segments t) σ ->
  exists c σ1 σ2,
    copy self σ = (Returned c, σ1) /\
    toTrip c name noise_var smooth_strategy smooth_noise seg_eps
           seg_min_time dist max_time file_format σ1 = (Returned c, σ2) /\
    c <> self /\
    tracks σ2 !! self = Some t /\
    (forall r, r ∈ dom (segs σ) -> segs σ2 !! r = segs σ !! r).
Proof.
  intros Ht Halive.
  destruct (copy_spec σ self t Ht Halive)
    as (c & rs & σ1 & Hcopy & Hc & Htr & _ & Hframe & Hall & _).
  assert (c <> self) as Hne by (intros ->; congruence).
  assert (tracks σ1 !! c = Some (mkTrack (Heap.name t) rs (preprocessed t)))
    as Hct by (rewrite Htr; apply lookup_insert_eq).
  assert (forall r, r ∈ rs -> (r ∉ dom (segs σ)) /\ is_Some (segs σ1 !! r))
    as Hrs.
  { intros r Hr. apply list_elem_of_lookup_1 in Hr as [i Hi].
    destruct (Forall2_lookup_r _ _ _ _ _ Hall Hi) as (r0 & Hi0 & Hnew & Hst).
    split; [exact Hnew |]. rewrite Hst. apply elem_of_dom, Halive.
    by eapply list_elem_of_lookup_2. }
  destruct (toTrip_frame c name noise_var smooth_strategy smooth_noise
              seg_eps seg_min_time dist max_time file_format σ1 _ Hct)
    as (t' & σ2 & Hrun & _ & _ & _ & _ & Hother & Hsegs).
  { intros r Hr. apply elem_of_dom. by apply Hrs. }
  exists c, σ1, σ2. split; [exact Hcopy |]. split; [exact Hrun |].
  split; [exact Hne |]. split.
  - rewrite Hother by done. rewrite Htr. by rewrite lookup_insert_ne.
  - intros r Hr. rewrite Hsegs.
    + by apply Hframe.
    + apply elem_of_dom. rewrite (Hframe r Hr). by apply elem_of_dom.
    + simpl. intros Hin. by apply (Hrs r Hin).
Qed.

(** *** [preprocess] and [inferLocation] *)

Lemma map_segments_run (f : Seg -> Seg * returned Seg) (todo : list sref) σ :
  exists out σ',
    map_segments f todo σ = (Returned out, σ') /\
    tracks σ' = tracks σ /\ calls σ' = calls σ /\
    dom (segs σ) ⊆ dom (segs σ') /\
    length out = length todo /\
    Forall2 (fun r x => x = r \/ x ∉ dom (segs σ)) todo out /\
    (forall r, r ∈ dom (segs σ) -> r ∉ todo -> segs σ' !! r = segs σ !! r) /\
    ((forall v, (f v).2 = RSelf) ->
     out = todo /\ segs σ' = apply_all (fun v => (f v).1) todo (segs σ)).
Proof.
  revert σ. induction todo as [|r todo IH]; intros σ; simpl.
  - exists [], σ. do 5 (split; [done |]). split; [constructor |].
    by split.
  - unfold bind at 1, get_seg. unfold bind at 1, update_seg.
    set (σa := mkStore (tracks σ)
                 (alter (fun v0 => (f v0).1) r (segs σ)) (calls σ)).
    assert (dom (segs σa) = dom (segs σ)) as Hdoma by apply dom_alter_L.
    unfold bind at 1.
    destruct ((f (segs σ !!! r)).2) as [|w] eqn:Hret.
    + destruct (IH σa) as (out & σ' & Hrun & Ht & Hc & Hsub & Hlen & Hall
                           & Hframe & Hself).
      unfold ret at 1. unfold bind. rewrite Hrun.
      exists (r :: out), σ'. split; [reflexivity |].
      split; [exact Ht |]. split; [exact Hc |].
      split; [by rewrite <- Hdoma |]. split; [simpl; by rewrite Hlen |].
      split; [| split].
      * constructor; [by left |]. by rewrite Hdoma in Hall.
      * intros x Hx Hnot. apply not_elem_of_cons in Hnot as [Hne Hnot].
        rewrite Hframe by (by rewrite ?Hdoma).
        unfold σa. cbn [segs]. by apply lookup_alter_ne.
      * intros Hf. destruct (Hself Hf) as [-> ->]. by split.
    + unfold new_seg.
      set (x := fresh (dom (segs σa))).
      set (σb := mkStore (tracks σa) (<[x := w]> (segs σa)) (calls σa)).
      destruct (IH σb) as (out & σ' & Hrun & Ht & Hc & Hsub & Hlen & Hall
                           & Hframe & Hself).
      unfold bind. rewrite Hrun.
      assert (dom (segs σ) ⊆ dom (segs σb)) as Hsubb.
      { rewrite <- Hdoma. unfold σb. cbn [segs]. rewrite dom_insert_L.
        intros y Hy. apply elem_of_union. by right. }
      exists (x :: out), σ'. split; [reflexivity |].
      split; [exact Ht |]. split; [exact Hc |].
      split; [by etrans |]. split; [simpl; by rewrite Hlen |].
      split; [| split].
      * constructor.
        -- right. rewrite <- Hdoma. apply is_fresh.
        -- eapply Forall2_impl; [exact Hall |]. simpl.
           intros r0 x0 [->|Hx]; [by left |]. right.
           intros Hin. by apply Hx, Hsubb.
      * intros y Hy Hnot. apply not_elem_of_cons in Hnot as [Hne Hnot].
        assert (x <> y) as Hxy.
        { intros <-. apply (is_fresh (dom (segs σa))).
          fold x. by rewrite Hdoma. }
        rewrite Hframe by (first [by apply Hsubb | done]).
        unfold σb, σa. cbn [segs].
        rewrite lookup_insert_ne by exact Hxy. by apply lookup_alter_ne.
      * intros Hf. rewrite Hf in Hret. discriminate.
Qed.

Lemma replaced_by_results_run (f : Seg -> Seg * returned Seg) self
    (t : Track) (flag : bool) (g : Track -> Track) σ :
  tracks σ !! self = Some t ->
  (forall new, g (mkTrack (name t) new (preprocessed t))
               = mkTrack (name t) new flag) ->
  exists σ',
    (segments <- map_segments f (segments t);;
     set_segments self segments;;;
     fun σ => (Returned self,
               mkStore (alter g self (tracks σ)) (segs σ) (calls σ))) σ
    = (Returned self, σ') /\
    replaced_by_results f self t flag σ σ'.
Proof.
  intros Ht Hg.
  destruct (map_segments_run f (segments t) σ)
    as (out & σ1 & Hrun & Htr & _ & _ & Hlen & Hall & Hframe & Hself).
  unfold bind at 1. rewrite Hrun. unfold bind, set_segments. simpl.
  eexists. split; [reflexivity |]. exists out. simpl.
  split; [by rewrite !lookup_alter_eq, Htr, Ht; simpl; rewrite Hg |].
  split; [intros other Hne; by rewrite !lookup_alter_ne, Htr |].
  split; [exact Hlen |]. split; [exact Hall |].
  split; [exact Hframe | exact Hself].
Qed.

Lemma preprocess_run σ self (t : Track) (destructive : bool)
    (max_acc : Num) :
  tracks σ !! self = Some t ->
  exists σ1,
    preprocess self destructive max_acc σ = (Returned self, σ1) /\
    replaced_by_results (seg_preprocess destructive max_acc)
                        self t true σ σ1.
Proof.
  intros Ht.
  pose proof (lookup_total_correct _ _ _ Ht) as Htot.
  destruct (replaced_by_results_run
              (seg_preprocess destructive max_acc) self t true
              (fun t => mkTrack (name t) (segments t) true) σ Ht)
    as (σ1 & Hrun1 & H1); [done |].
  exists σ1. split; [| exact H1].
  rewrite <- Hrun1. unfold preprocess, bind at 1, get_track.
  rewrite Htot. unfold bind, set_segments, set_preprocessed, ret.
  by destruct (map_segments _ _ _) as [[?|?] ?].
Qed.

Lemma inferLocation_run σ self (t : Track) (location_query : Query)
    (max_distance : Num) (google_key : Key) (limit : Num) :
  tracks σ !! self = Some t ->
  exists σ2,
    inferLocation self location_query max_distance google_key limit σ
    = (Returned self, σ2) /\
    replaced_by_results
      (seg_inferLocation location_query max_distance google_key limit)
      self t (preprocessed t) σ σ2.
Proof.
  intros Ht.
  pose proof (lookup_total_correct _ _ _ Ht) as Htot.
  destruct (replaced_by_results_run
              (seg_inferLocation location_query max_distance google_key limit)
              self t (preprocessed t) (fun t => t) σ Ht)
    as (σ2 & Hrun2 & H2); [done |].
  exists σ2. split; [| exact H2].
  rewrite <- Hrun2. unfold inferLocation, bind at 1, get_track.
  rewrite Htot. unfold bind, set_segments, ret.
  destruct (map_segments _ _ _) as [[?|?] ?]; [| reflexivity].
  simpl. by rewrite (alter_id (fun t0 : Track => t0)).
Qed.

(** X12. [preprocess] and [inferLocation] return the track and replace its
    segment list by what the segment-level calls return: the list keeps
    its length, each position holds the old segment or an object made by
    the call, the name stays, no other track and no segment object outside
    the list changes, and if the segment-level method returns its receiver
    the list is the same as before. [preprocess] sets the [preprocessed]
    flag; [inferLocation] leaves it. *)
Theorem list_replacing_stages σ self (t : Track) (destructive : bool)
    (max_acc max_distance limit : Num) (location_query : Query)
    (google_key : Key) :
  tracks σ !! self = Some t ->
  exists σ1 σ2,
    preprocess self destructive max_acc σ = (Returned self, σ1) /\
    replaced_by_results (seg_preprocess destructive max_acc)
                        self t true σ σ1 /\
    inferLocation self location_query max_distance google_key limit σ
    = (Returned self, σ2) /\
    replaced_by_results
      (seg_inferLocation location_query max_distance google_key limit)
      self t (preprocessed t) σ σ2.
Proof.
  intros Ht.
  destruct (preprocess_run σ self t destructive max_acc Ht)
    as (σ1 & Hrun1 & H1).
  destruct (inferLocation_run σ self t location_query max_distance
              google_key limit Ht) as (σ2 & Hrun2 & H2).
  by exists σ1, σ2.
Qed.

(** *** [toJSON] and [fromJSON] *)

Lemma Track_init_run (name : string) (ss : list sref) σ :
  Track_init name ss σ
  = (Returned (fresh (dom (tracks σ))),
     mkStore (<[fresh (dom (tracks σ))
                := mkTrack name (Py.sorted (start_time_of σ) ss) false]>
                (tracks σ))
             (segs σ) (calls σ)).
Proof. reflexivity. Qed.

(** X13. [fromJSON] raises [KeyError] when the map has no ["segments"]
    key, and also when it has no ["name"] key (the segment objects have
    been made by then). With both keys it returns a new track with the
    given name, [preprocessed] set and as many segments as the map lists;
    no track and no segment object that existed before changes. *)
Theorem fromJSON_spec σ (j : json JSeg) :
  (j_segments j = None -> fromJSON j σ = (JKeyError "segments", σ)) /\
  (forall js,
      j_segments j = Some js -> j_name j = None ->
      exists σ',
        fromJSON j σ = (JKeyError "name", σ') /\ tracks σ' = tracks σ) /\
  (forall js n,
      j_segments j = Some js -> j_name j = Some n ->
      exists t tr σ',
        fromJSON j σ = (JReturned t, σ') /\
        tracks σ !! t = None /\
        tracks σ' !! t = Some tr /\
        name tr = n /\ preprocessed tr = true /\
        length (segments tr) = length js /\
        (forall other, other <> t ->
                       tracks σ' !! other = tracks σ !! other) /\
        (forall r, r ∈ dom (segs σ) -> segs σ' !! r = segs σ !! r)).
Proof.
  split; [| split].
  - intros Hs. unfold fromJSON. by rewrite Hs.
  - intros js Hs Hn. unfold fromJSON. rewrite Hs, Hn.
    destruct (new_segs_run (map Segment_fromJSON js) σ)
      as (rs & σ1 & Hrun & Ht & _).
    rewrite Hrun. by exists σ1.
  - intros js n Hs Hn. unfold fromJSON. rewrite Hs, Hn.
    destruct (new_segs_run (map Segment_fromJSON js) σ)
      as (rs & σ1 & Hrun & Ht & _ & Hlen & _ & Hfresh & Hframe & _).
    rewrite Hrun. unfold bind at 1. rewrite Track_init_run.
    set (t := fresh (dom (tracks σ1))).
    set (tr0 := mkTrack n (Py.sorted (start_time_of σ1) rs) false).
    set (σ2 := mkStore (<[t := tr0]> (tracks σ1)) (segs σ1) (calls σ1)).
    assert (tracks σ2 !! t = Some tr0) as Ht2 by apply lookup_insert_eq.
    destruct (preprocess_run σ2 t tr0 true PREPROCESS_MAX_ACC Ht2)
      as (σ3 & Hrun3 & (new & Hself & Hother & Hlen3 & _ & Hframe3 & _)).
    rewrite Hrun3. exists t, (mkTrack n new true), σ3.
    split; [reflexivity |].
    split; [rewrite <- Ht; apply not_elem_of_dom, is_fresh |].
    split; [exact Hself |]. do 2 (split; [reflexivity |]).
    split.
    { simpl. rewrite Hlen3. simpl.
      rewrite (Permutation_length (sorted_perm _ rs)), Hlen.
      apply length_map. }
    split.
    { intros other Hne. rewrite Hother by done. simpl.
      rewrite lookup_insert_ne by done. by rewrite Ht. }
    intros r Hr.
    assert (r ∉ rs) as Hnot by (intros Hin; by apply (Hfresh r Hin)).
    rewrite Hframe3.
    + simpl. by apply Hframe.
    + simpl. apply elem_of_dom. rewrite Hframe by exact Hnot.
      by apply elem_of_dom.
    + simpl. by rewrite (sorted_perm _ rs).
Qed.

(** X14. What [toJSON] builds is accepted by [fromJSON]: the map has both
    keys, and reading it back gives a new track with the same name and the
    same number of segments, flagged as preprocessed, while the original
    track and the existing segment objects stay as they are. *)
Theorem toJSON_fromJSON σ self (t : Track) :
  tracks σ !! self = Some t ->
  exists j t2 tr σ',
    toJSON self σ = (Returned j, σ) /\
    fromJSON j σ = (JReturned t2, σ') /\
    t2 <> self /\
    tracks σ' !! t2 = Some tr /\
    name tr = name t /\ preprocessed tr = true /\
    length (segments tr) = length (segments t) /\
    tracks σ' !! self = Some t /\
    (forall r, r ∈ dom (segs σ) -> segs σ' !! r = segs σ !! r).
Proof.
  intros Ht.
  pose proof (lookup_total_correct _ _ _ Ht) as Htot.
  set (js := map (fun r => seg_toJSON (segs σ !!! r)) (segments t)).
  destruct (fromJSON_spec σ (mkJson (Some (name t)) (Some js)))
    as (_ & _ & Hok).
  destruct (Hok js (name t) eq_refl eq_refl)
    as (t2 & tr & σ' & Hrun & Hnew & Htr & Hname & Hflag & Hlen & Hother
        & Hframe).
  assert (t2 <> self) as Hne by (intros ->; congruence).
  exists (mkJson (Some (name t)) (Some js)), t2, tr, σ'.
  split; [unfold toJSON, bind, get_track; by rewrite Htot |].
  split; [exact Hrun |]. split; [exact Hne |]. split; [exact Htr |].
  split; [exact Hname |]. split; [exact Hflag |].
  split; [rewrite Hlen; apply length_map |].
  split; [by rewrite Hother | exact Hframe].
Qed.

(** *** [fromGPX] *)

Lemma fromGPX_loop_run (fileName : string) (n : nat)
    (todo : list (list GSeg)) :
  forall (ti : nat) σ,
  exists ts σ',
    fromGPX_loop fileName n ti todo σ = (Returned ts, σ') /\
    length ts = length todo /\
    NoDup ts /\
    (forall t, t ∈ ts -> t ∉ dom (tracks σ)) /\
    (forall t, t ∉ ts -> tracks σ' !! t = tracks σ !! t) /\
    (forall r, r ∈ dom (segs σ) -> segs σ' !! r = segs σ !! r) /\
    (forall i t g,
        ts !! i = Some t -> todo !! i = Some g ->
        exists tr,
          tracks σ' !! t = Some tr /\
          name tr = gpx_name fileName n (ti + i) /\
          preprocessed tr = false /\
          length (segments tr) = length g /\
          (forall r, r ∈ segments tr -> r ∉ dom (segs σ))).
Proof.
  induction todo as [|g todo IH]; intros ti σ; simpl.
  - exists [], σ. do 2 (split; [reflexivity |]). split; [constructor |].
    split; [intros t Ht; by apply elem_of_nil in Ht |].
    do 2 (split; [done |]). intros i t g Hi. by rewrite lookup_nil in Hi.
  - destruct (new_segs_run (map Segment_fromGPX g) σ)
      as (rs & σ1 & Hrun1 & Ht1 & _ & Hlen1 & _ & Hfresh1 & Hframe1 & _).
    unfold bind at 1. rewrite Hrun1.
    unfold bind at 1. rewrite Track_init_run.
    fold (gpx_name fileName n ti).
    set (t0 := fresh (dom (tracks σ1))).
    set (tr0 := mkTrack (gpx_name fileName n ti)
                        (Py.sorted (start_time_of σ1) rs) false).
    set (σ2 := mkStore (<[t0 := tr0]> (tracks σ1)) (segs σ1) (calls σ1)).
    destruct (IH (S ti) σ2)
      as (ts & σ' & Hrun & Hlen & Hnd & Hfresh & Hframe & Hsegs & Hall).
    unfold bind. rewrite Hrun. exists (t0 :: ts), σ'.
    assert (t0 ∉ dom (tracks σ)) as Ht0.
    { rewrite <- Ht1. apply is_fresh. }
    assert (t0 ∉ ts) as Ht0ts.
    { intros Hin. apply (Hfresh t0 Hin). unfold σ2. cbn [tracks].
      rewrite dom_insert_L. apply elem_of_union. left.
      by apply elem_of_singleton. }
    assert (forall r, r ∈ dom (segs σ) -> segs σ1 !! r = segs σ !! r)
      as Hold1.
    { intros r Hr. apply Hframe1. intros Hin. by apply (Hfresh1 r Hin). }
    assert (dom (segs σ) ⊆ dom (segs σ2)) as Hsub.
    { intros r Hr. unfold σ2. cbn [segs]. apply elem_of_dom.
      rewrite Hold1 by exact Hr. by apply elem_of_dom. }
    split; [reflexivity |]. split; [simpl; by rewrite Hlen |].
    split; [by apply NoDup_cons |].
    split.
    { intros t Ht. apply elem_of_cons in Ht as [->|Ht]; [exact Ht0 |].
      specialize (Hfresh t Ht). unfold σ2 in Hfresh. cbn [tracks] in Hfresh.
      rewrite dom_insert_L, Ht1 in Hfresh.
      intros Hin. apply Hfresh, elem_of_union. by right. }
    split.
    { intros t Ht. apply not_elem_of_cons in Ht as [Hne Ht].
      rewrite Hframe by exact Ht. unfold σ2. cbn [tracks].
      rewrite lookup_insert_ne by done. by rewrite Ht1. }
    split.
    { intros r Hr. rewrite Hsegs by (by apply Hsub). unfold σ2. cbn [segs].
      by apply Hold1. }
    intros [|i] t g' Hi Hg; simpl in Hi, Hg.
    + injection Hi as <-. injection Hg as <-.
      exists tr0. split.
      { rewrite Hframe by exact Ht0ts. unfold σ2. cbn [tracks].
        apply lookup_insert_eq. }
      split; [simpl; by rewrite Nat.add_0_r |]. split; [reflexivity |].
      split.
      { simpl. rewrite (Permutation_length (sorted_perm _ rs)), Hlen1.
        apply length_map. }
      simpl. intros r Hr. rewrite (sorted_perm _ rs) in Hr.
      by apply Hfresh1.
    + destruct (Hall i t g' Hi Hg) as (tr & Htr & Hname & Hflag & Hl & Hnew).
      exists tr. split; [exact Htr |].
      split; [rewrite Hname; f_equal; lia |]. split; [exact Hflag |].
      split; [exact Hl |].
      intros r Hr Hin. by apply (Hnew r Hr), Hsub.
Qed.

Lemma gpx_name_inj (fileName : string) (n i j : nat) :
  (1 < n)%nat -> gpx_name fileName n i = gpx_name fileName n j -> i = j.
Proof.
  intros Hn. unfold gpx_name.
  destruct (Nat.ltb_spec 1 n) as [_|Hle]; [| lia].
  intros Heq. apply (inj (String.app fileName)) in Heq.
  apply (inj (String.app "_")) in Heq. by apply (inj pretty) in Heq.
Qed.

(** X15. [fromGPX] gives one new track per track of the document, in
    order, none flagged as preprocessed, each with as many segments as the
    document's track and all of them new objects. A document with one
    track gives a track named after the file; with several tracks the
    names are the file name followed by ["_"] and the position, so no two
    of them are equal. Nothing that existed before changes. *)
Theorem fromGPX_spec σ (fileName : string) (gpx_tracks : list (list GSeg)) :
  exists ts σ',
    fromGPX fileName gpx_tracks σ = (Returned ts, σ') /\
    length ts = length gpx_tracks /\
    NoDup ts /\
    (forall t, t ∈ ts -> tracks σ !! t = None) /\
    (forall t, t ∉ ts -> tracks σ' !! t = tracks σ !! t) /\
    (forall r, r ∈ dom (segs σ) -> segs σ' !! r = segs σ !! r) /\
    (forall i t g,
        ts !! i = Some t -> gpx_tracks !! i = Some g ->
        exists tr,
          tracks σ' !! t = Some tr /\
          name tr = (if (1 <? length gpx_tracks)%nat
                     then fileName +:+ "_" +:+ pretty i else fileName) /\
          preprocessed tr = false /\
          length (segments tr) = length g /\
          (forall r, r ∈ segments tr -> r ∉ dom (segs σ))) /\
    (forall i j ti tj tri trj,
        (1 < length gpx_tracks)%nat -> i <> j ->
        ts !! i = Some ti -> ts !! j = Some tj ->
        tracks σ' !! ti = Some tri -> tracks σ' !! tj = Some trj ->
        name tri <> name trj).
Proof.
  destruct (fromGPX_loop_run fileName (length gpx_tracks) gpx_tracks 0 σ)
    as (ts & σ' & Hrun & Hlen & Hnd & Hfresh & Hframe & Hsegs & Hall).
  exists ts, σ'. split; [exact Hrun |]. split; [exact Hlen |].
  split; [exact Hnd |].
  split; [intros t Ht; by apply not_elem_of_dom, Hfresh |].
  split; [exact Hframe |]. split; [exact Hsegs |]. split; [exact Hall |].
  intros i j ti tj tri trj Hn Hij Hi Hj Htri Htrj Heq.
  destruct (lookup_lt_is_Some_2 gpx_tracks i) as [gi Hgi];
    [rewrite <- Hlen; by eapply lookup_lt_Some |].
  destruct (lookup_lt_is_Some_2 gpx_tracks j) as [gj Hgj];
    [rewrite <- Hlen; by eapply lookup_lt_Some |].
  destruct (Hall i ti gi Hi Hgi) as (tr1 & H1 & Hn1 & _).
  destruct (Hall j tj gj Hj Hgj) as (tr2 & H2 & Hn2 & _).
  rewrite Htri in H1. injection H1 as <-.
  rewrite Htrj in H2. injection H2 as <-.
  rewrite Hn1, Hn2 in Heq. simpl in Heq.
  by apply Hij, (gpx_name_inj fileName (length gpx_tracks)).
Qed.

(** *** [similarity] when nothing overlaps, and its result in
    [merge_and_fit] *)

Lemma for_each_app {A} (body : A -> Heap.M Seg unit) (l1 l2 : list A) σ :
  for_each body (l1 ++ l2) σ
  = match for_each body l1 σ with
    | (Returned _, σ1) => for_each body l2 σ1
    | (Raised e, σ1) => (Raised e, σ1)
    end.
Proof.
  revert σ. induction l1 as [|x l1 IH]; intros σ; simpl; [reflexivity |].
  unfold bind. destruct (body x σ) as [[[]|e] σ1]; [apply IH | reflexivity].
Qed.

(** No entry of the index overlaps the query exactly when no segment of
    [self] has a box that overlaps the query's box. *)
Lemma candidates_none σ self (Q : Seg) :
  (forall r, r ∈ segments (tracks σ !!! self) ->
     bbox_intersects (seg_getBounds (segs σ !!! r)) (seg_getBounds Q)
     = false) ->
  candidates (index_of σ self) Q = [].
Proof.
  intros Hno. destruct (candidates (index_of σ self) Q) as [|c cs] eqn:Hc;
    [reflexivity |]. exfalso.
  assert (c ∈ candidates (index_of σ self) Q) as Hin
    by (rewrite Hc; apply elem_of_cons; by left).
  apply candidates_spec in Hin as [Hidx Hov].
  apply index_of_entries in Hidx as (j & r & Hj & ->).
  simpl in Hov. rewrite Hno in Hov; [discriminate |].
  by eapply list_elem_of_lookup_2.
Qed.

(** With a candidate at hand the loop body records a triple whose first
    index is the position of a segment of [self]. *)
Lemma best_match_some σ self (i : nat) (Q : Seg) :
  candidates (index_of σ self) Q <> [] ->
  exists s j r d,
    best_match (index_of σ self) i Q
    = Returned (s, Match (Z.of_nat j) (Z.of_nat i) d) /\
    segments (tracks σ !!! self) !! j = Some r.
Proof.
  intros Hne. unfold best_match. fold (candidates (index_of σ self) Q).
  destruct (candidates (index_of σ self) Q) as [|c cs] eqn:Hc; [done |].
  change (0 <? length (res_siml Q (c :: cs)))%nat with true. cbv iota.
  destruct (Py.max_list (res_siml Q (c :: cs))) as [best|] eqn:Hmax;
    [| discriminate].
  destruct (Py.argmax (res_siml Q (c :: cs))) as [k|] eqn:Harg;
    [| discriminate].
  apply argmax_bound in Harg. unfold res_siml in Harg.
  rewrite length_map in Harg.
  destruct (lookup_lt_is_Some_2 (c :: cs) k Harg) as [c' Hc'].
  unfold res_diff. rewrite list_lookup_fmap, Hc'. simpl.
  assert (c' ∈ candidates (index_of σ self) Q) as Hin
    by (rewrite Hc; by eapply list_elem_of_lookup_2).
  apply candidates_spec in Hin as [Hidx _].
  apply index_of_entries in Hidx as (j & r & Hj & ->).
  by eexists _, j, r, _.
Qed.

Lemma readable_merge_count (ss ts : list sref) (ff : list (corr Diff)) :
  Forall (readable ss ts) ff ->
  length (omap (merge_of ss ts) ff) = length ff.
Proof.
  induction 1 as [|e ff (i & j & d & -> & [a Ha] & [b Hb]) _ IH];
    [reflexivity |].
  simpl. rewrite Ha, Hb. simpl. f_equal. exact IH.
Qed.

(** X16. When the other track has segments (fewer than [2 ^ 53]) and no
    segment of [self] has a box that overlaps the box of any of them,
    [similarity] returns the score 0 and a correspondence list made of
    empty markers only, one per segment of the other track. *)
Theorem similarity_no_overlap σ self track :
  let ss := segments (tracks σ !!! self) in
  let qs := segments (tracks σ !!! track) in
  qs <> [] ->
  (Z.of_nat (length qs) < 2 ^ 53)%Z ->
  (forall r q, r ∈ ss -> q ∈ qs ->
     bbox_intersects (seg_getBounds (segs σ !!! r))
                     (seg_getBounds (segs σ !!! q)) = false) ->
  similarity self track σ
  = (Returned (zero, replicate (length qs) NoMatch), σ).
Proof.
  intros ss qs Hne Hlen Hno.
  destruct (similarity_lists_run σ self track)
    as (fs & fd & Hrun & Hls & Hld & Hall).
  fold qs in Hls, Hld, Hall.
  assert (forall i q, qs !! i = Some q ->
            fs !! i = Some zero /\ fd !! i = Some NoMatch) as Hi.
  { intros i q Hq. destruct (Hall i q Hq) as (s & d & Hbm & Hs & Hd).
    rewrite (best_match_empty _ i) in Hbm.
    - by injection Hbm as <- <-.
    - apply candidates_none. intros r Hr. apply Hno; [exact Hr |].
      by eapply list_elem_of_lookup_2. }
  assert (fs = replicate (length qs) zero) as ->.
  { symmetry. apply replicate_as_Forall. split; [exact Hls |].
    apply Forall_lookup. intros i s Hs.
    destruct (lookup_lt_is_Some_2 qs i) as [q Hq];
      [rewrite <- Hls; by eapply lookup_lt_Some |].
    destruct (Hi i q Hq) as [Hz _]. congruence. }
  assert (fd = replicate (length qs) NoMatch) as ->.
  { symmetry. apply replicate_as_Forall. split; [exact Hld |].
    apply Forall_lookup. intros i d Hd.
    destruct (lookup_lt_is_Some_2 qs i) as [q Hq];
      [rewrite <- Hld; by eapply lookup_lt_Some |].
    destruct (Hi i q Hq) as [_ Hz]. congruence. }
  unfold similarity. rewrite Hrun. rewrite mean_zeros; [reflexivity | | exact Hlen].
  destruct qs; [done | simpl; lia].
Qed.

(** X17. The correspondence list that [similarity] returns, handed to
    [merge_and_fit] on the same two tracks: when every segment of the
    other track has a candidate, the call returns [self] after one
    segment-level merge per segment of the other track; when the segment
    at position [k] is the first without a candidate, the call raises
    [ValueError], and it does so after the merges for the [k] entries
    before it have been made. *)
Theorem merge_and_fit_after_similarity σ self track (threshold : Num) :
  let qs := segments (tracks σ !!! track) in
  let idx := index_of σ self in
  exists score ff,
    similarity self track σ = (Returned (score, ff), σ) /\
    ((forall q, q ∈ qs -> candidates idx (segs σ !!! q) <> []) ->
     exists σ',
       merge_and_fit self track ff threshold σ = (Returned self, σ') /\
       length (calls σ') = (length (calls σ) + length qs)%nat) /\
    (forall k q,
       qs !! k = Some q ->
       candidates idx (segs σ !!! q) = [] ->
       (forall j q', (j < k)%nat -> qs !! j = Some q' ->
                     candidates idx (segs σ !!! q') <> []) ->
       exists σ',
         merge_and_fit self track ff threshold σ = (Raised ValueError, σ') /\
         merge_and_fit self track (take k ff) threshold σ
         = (Returned self, σ') /\
         length (calls σ') = (length (calls σ) + k)%nat).
Proof.
  intros qs idx.
  set (ss := segments (tracks σ !!! self)).
  destruct (similarity_lists_run σ self track)
    as (fs & fd & Hrun & Hls & Hld & Hall).
  fold qs idx in Hls, Hld, Hall.
  exists (Py.mean fs), fd. unfold similarity. rewrite Hrun.
  split; [reflexivity |].
  assert (forall i q d, qs !! i = Some q -> fd !! i = Some d ->
            candidates idx (segs σ !!! q) <> [] -> readable ss qs d)
    as Hread.
  { intros i q d Hq Hd Hc.
    destruct (Hall i q Hq) as (s & d' & Hbm & _ & Hd').
    rewrite Hd in Hd'. injection Hd' as <-.
    destruct (best_match_some σ self i (segs σ !!! q) Hc)
      as (s' & j & r & df & Hbm' & Hj).
    fold idx in Hbm'. rewrite Hbm in Hbm'. injection Hbm' as _ ->.
    exists (Z.of_nat j), (Z.of_nat i), df. split; [reflexivity |].
    rewrite !getitem_nonneg, !Nat2Z.id by lia. split; by eexists. }
  split.
  - intros Hcand.
    assert (Forall (readable ss qs) fd) as Hfd.
    { apply Forall_lookup. intros i d Hd.
      destruct (lookup_lt_is_Some_2 qs i) as [q Hq];
        [rewrite <- Hld; by eapply lookup_lt_Some |].
      apply (Hread i q d Hq Hd), Hcand. by eapply list_elem_of_lookup_2. }
    destruct (merge_loop_run self track ss qs fd σ eq_refl eq_refl)
      as (o & σ' & Hloop & _ & _ & Hret).
    destruct (Hret Hfd) as [-> Hcalls].
    exists σ'. unfold merge_and_fit, bind. rewrite Hloop.
    split; [reflexivity |].
    by rewrite Hcalls, length_app, readable_merge_count, Hld.
  - intros k q Hq Hnone Hbefore.
    destruct (Hall k q Hq) as (s & d & Hbm & _ & Hd).
    rewrite (best_match_empty idx k _ Hnone) in Hbm.
    injection Hbm as <- <-.
    assert (Forall (readable ss qs) (take k fd)) as Hpre.
    { apply Forall_lookup. intros i d Hi.
      apply lookup_take_Some in Hi as [Hi Hik].
      destruct (lookup_lt_is_Some_2 qs i) as [q' Hq'];
        [rewrite <- Hld; by eapply lookup_lt_Some |].
      by apply (Hread i q' d Hq' Hi), (Hbefore i q'). }
    destruct (merge_loop_run self track ss qs (take k fd) σ eq_refl eq_refl)
      as (o & σ' & Hloop & _ & _ & Hret).
    destruct (Hret Hpre) as [-> Hcalls].
    exists σ'. unfold merge_and_fit, bind.
    rewrite <- (take_drop_middle fd k NoMatch Hd) at 1.
    rewrite for_each_app, Hloop.
    split; [reflexivity |]. split; [reflexivity |].
    rewrite Hcalls, length_app, readable_merge_count by exact Hpre.
    rewrite length_take. apply lookup_lt_Some in Hd. f_equal. lia.
Qed.

End WithSegment.
End MoreFacts.

(** ** More runs on the concrete segments *)
Module MoreRuns.
Import PyFloat Heap Collab CollabMore TrackPy TrackMore TrackFacts MoreFacts.
Import Fixture FixtureMore.

Lemma σ0_all_alive : all_alive [0; 1; 2] σ0.
Proof.
  intros r Hr. apply elem_of_dom.
  repeat (apply elem_of_cons in Hr as [->|Hr]; [vm_compute; by eexists |]).
  by apply elem_of_nil in Hr.
Qed.

(** C5: track 0 turned into a trip. Its three segments hold five points;
    afterwards the track lists five new one-point segments, in the order
    of the points, and segment object 0 is as segmentation left it. *)
Lemma toTrip_stage_sequence_witness :
  exists σ',
    toTrip 0 "" 2%Z "inverse" 0%Z 0%Z 0%Z 0%Z 5%Z "%Y-%m-%d" σ0
    = (Returned 0, σ') /\
    map (fun r => segs σ' !! r) (segments (tracks σ' !!! 0))
    = map Some [mkFSeg 1 (box 0 0 1 1) [1]%Z; mkFSeg 2 (box 0 0 1 1) [2]%Z;
                mkFSeg 3 (box 0 0 1 1) [3]%Z; mkFSeg 4 (box 0 0 1 1) [4]%Z;
                mkFSeg 5 (box 0 0 1 1) [5]%Z] /\
    segs σ' !! 0 = Some seg_a.
Proof.
  destruct (toTrip_stage_sequence 0 "" 2%Z "inverse" 0%Z 0%Z 0%Z 0%Z 5%Z
              "%Y-%m-%d" σ0)
    as (σ' & σn & H).
  cbv zeta in H. destruct H as (Hrun & _ & _ & _ & _ & _ & _ & Hstate).
  destruct Hstate as (_ & _ & Hold & Hnew & _).
  - by eexists.
  - exact σ0_all_alive.
  - apply (bool_decide_unpack _). by vm_compute.
  - exists σ'. split; [exact Hrun |]. split; [exact Hnew |].
    apply (Hold 0). apply elem_of_cons. by left.
Defined.

(** X4: a track built from segments 1 and 0, given in that order, starts
    when segment 0 starts. *)
Lemma Track_init_getStartTime_witness :
  exists t σ' r,
    Track_init "day" [1; 0] σ0 = (Returned t, σ') /\
    segmentAt t 0 σ' = (Returned r, σ') /\
    getStartTime t σ' = (Returned (Some (start_time_of σ' r)), σ').
Proof. apply (Track_init_getStartTime σ0 "day" [1; 0]). discriminate. Defined.

(** X8: track 0 after [segment]. *)
Lemma segment_replaces_segments_witness :
  exists new σ',
    segment 0 0%Z 0%Z σ0 = (Returned 0, σ') /\
    tracks σ' !! 0 = Some (mkTrack "" new false) /\
    NoDup new /\
    (forall r, r ∈ new -> r ∉ dom (segs σ0)).
Proof.
  destruct (segment_replaces_segments σ0 0 0%Z 0%Z
              (mkTrack "" [0; 1; 2] false))
    as (new & σ' & Hrun & Htr & _ & Hnd & Hfresh & _).
  - reflexivity.
  - exact σ0_all_alive.
  - by exists new, σ'.
Defined.

(** X9: track 0 turned into a trip; track 1 is as before. *)
Lemma toTrip_frame_witness :
  exists σ',
    toTrip 0 "trip" 2%Z "inverse" 0%Z 0%Z 0%Z 0%Z 5%Z "%Y-%m-%d" σ0
    = (Returned 0, σ') /\
    tracks σ' !! 1 = tracks σ0 !! 1.
Proof.
  destruct (toTrip_frame 0 "trip" 2%Z "inverse" 0%Z 0%Z 0%Z 0%Z 5%Z
              "%Y-%m-%d" σ0 (mkTrack "" [0; 1; 2] false))
    as (t' & σ' & Hrun & _ & _ & _ & _ & Hother & _).
  - reflexivity.
  - exact σ0_all_alive.
  - exists σ'. split; [exact Hrun |]. by apply Hother.
Defined.

Lemma σ0_twice_alive : all_alive [0; 0] σ0.
Proof.
  intros r Hr. apply elem_of_dom.
  repeat (apply elem_of_cons in Hr as [->|Hr]; [vm_compute; by eexists |]).
  by apply elem_of_nil in Hr.
Qed.

(** X10: track 2 lists one object twice, and so does its copy. *)
Lemma copy_spec_witness :
  exists c rs σ',
    copy 2 σ0 = (Returned c, σ') /\
    tracks σ0 !! c = None /\
    tracks σ' = <[c := mkTrack "twice" rs false]> (tracks σ0) /\
    (forall x1 x2, rs !! 0%nat = Some x1 -> rs !! 1%nat = Some x2 -> x1 = x2).
Proof.
  destruct (copy_spec σ0 2 (mkTrack "twice" [0; 0] false))
    as (c & rs & σ' & Hrun & Hc & Htr & _ & _ & _ & Hshare).
  - reflexivity.
  - exact σ0_twice_alive.
  - exists c, rs, σ'. do 3 (split; [done |]).
    intros x1 x2 H1 H2.
    by apply (Hshare 0%nat 1%nat 0 0 x1 x2 eq_refl eq_refl H1 H2).
Defined.

(** X11: a copy of track 0 turned into a trip. *)
Lemma copy_then_toTrip_keeps_original_witness :
  exists c σ1 σ2,
    copy 0 σ0 = (Returned c, σ1) /\
    toTrip c "trip" 2%Z "inverse" 0%Z 0%Z 0%Z 0%Z 5%Z "%Y-%m-%d" σ1
    = (Returned c, σ2) /\
    c <> 0 /\
    tracks σ2 !! 0 = Some (mkTrack "" [0; 1; 2] false) /\
    (forall r, r ∈ dom (segs σ0) -> segs σ2 !! r = segs σ0 !! r).
Proof.
  apply (copy_then_toTrip_keeps_original σ0 0 (mkTrack "" [0; 1; 2] false)
           "trip" 2%Z "inverse" 0%Z 0%Z 0%Z 0%Z 5%Z "%Y-%m-%d").
  - reflexivity.
  - exact σ0_all_alive.
Defined.

(** X12: both stages on track 0. *)
Lemma list_replacing_stages_witness :
  exists σ1 σ2,
    preprocess 0 true 30%Z σ0 = (Returned 0, σ1) /\
    replaced_by_results (seg_preprocess true 30%Z) 0
                        (mkTrack "" [0; 1; 2] false) true σ0 σ1 /\
    inferLocation 0 "home" 20%Z "key" 5%Z σ0 = (Returned 0, σ2) /\
    replaced_by_results (seg_inferLocation "home" 20%Z "key" 5%Z) 0
                        (mkTrack "" [0; 1; 2] false) false σ0 σ2.
Proof.
  apply (list_replacing_stages σ0 0 (mkTrack "" [0; 1; 2] false) true
           30%Z 20%Z 5%Z "home" "key").
  reflexivity.
Defined.

(** X14: track 1 written out and read back. *)
Lemma toJSON_fromJSON_witness :
  exists j t2 tr σ',
    toJSON 1 σ0 = (Returned j, σ0) /\
    fromJSON j σ0 = (JReturned t2, σ') /\
    t2 <> 1 /\
    tracks σ' !! t2 = Some tr /\
    Heap.name tr = "old" /\ preprocessed tr = true /\
    length (segments tr) = 1%nat /\
    tracks σ' !! 1 = Some (mkTrack "old" [1] false) /\
    (forall r, r ∈ dom (segs σ0) -> segs σ' !! r = segs σ0 !! r).
Proof.
  apply (toJSON_fromJSON σ0 1 (mkTrack "old" [1] false)). reflexivity.
Defined.

(** X16: track 1 holds segment 1, track 4 holds segment 2, and their
    boxes lie apart. *)
Lemma similarity_no_overlap_witness :
  similarity 1 4 σ1 = (Returned (zero, [NoMatch]), σ1).
Proof.
  apply (similarity_no_overlap σ1 1 4).
  - vm_compute. intros H. discriminate H.
  - vm_compute. reflexivity.
  - intros r q Hr Hq. vm_compute in Hr, Hq.
    apply list_elem_of_singleton in Hr, Hq. subst. by vm_compute.
Defined.

(** X17: track 0 compared against track 1. Segments 0 and 1 overlap the
    one segment of track 1 and segment 2 does not, so the merge raises
    after two segment-level merges. *)
Lemma merge_and_fit_after_similarity_witness :
  exists score ff σ',
    similarity 1 0 σ0 = (Returned (score, ff), σ0) /\
    merge_and_fit 1 0 ff 0%Z σ0 = (Raised ValueError, σ') /\
    length (calls σ') = 2%nat.
Proof.
  destruct (merge_and_fit_after_similarity σ0 1 0 0%Z)
    as (score & ff & Hsim & _ & Hraise).
  destruct (Hraise 2%nat 2 eq_refl) as (σ' & Hrun & _ & Hcalls).
  - by vm_compute.
  - intros j q' Hj Hq. destruct j as [|[|j]]; [| | lia];
      injection Hq as <-; vm_compute; intros H; discriminate H.
  - by exists score, ff, σ'.
Defined.

End MoreRuns.
